(** * SecVulEval: the cached symbol backend ([src/agents/symbol_backend.py])

    A shallow embedding of [SymbolBackend]: the regular expressions of the
    pattern extractor, the tree-sitter node finders, the two cache tiers and
    the candidate loop of [_lookup], followed by the properties of the
    natural-language specification that were checked against them.

    Conventions.  A Python [str] is a [string]; a character is a code point
    below 256.  Line numbers are Python ints, hence [Z].  Byte and character
    offsets are [nat].  Git, the tree-sitter parsers and [pathlib] are not
    code of the repository: they are parameters of the model. *)

From Stdlib Require Import ZArith Lia Ascii String List Bool.
From stdpp Require Import gmap strings list fin_maps.
Import ListNotations.
Local Open Scope string_scope.

(** ** Characters and strings as Python sees them *)

Module PyStr.

Definition ord (c : ascii) : nat := nat_of_ascii c.

Definition between (lo hi n : nat) : bool := (lo <=? n)%nat && (n <=? hi)%nat.

(** [str.isspace] on one code point; also the class [\s] of [re]. *)
Definition is_space (c : ascii) : bool :=
  let n := ord c in
  between 9 13 n || between 28 32 n || (n =? 133)%nat || (n =? 160)%nat.

(** The class [\w] of [re] on a [str] pattern: alphanumeric or underscore. *)
Definition is_word (c : ascii) : bool :=
  let n := ord c in
  between 48 57 n || between 65 90 n || between 97 122 n || (n =? 95)%nat
  || (n =? 170)%nat || (n =? 178)%nat || (n =? 179)%nat || (n =? 181)%nat
  || (n =? 185)%nat || (n =? 186)%nat || between 188 190 n
  || between 192 214 n || between 216 246 n || between 248 255 n.

Definition newline : ascii := "010"%char.

Definition is_newline (c : ascii) : bool := (ord c =? 10)%nat.

Definition nl : string := String newline EmptyString.

Fixpoint drop (n : nat) (s : string) : string :=
  match n, s with
  | O, _ => s
  | S n', String _ s' => drop n' s'
  | S _, EmptyString => EmptyString
  end.

Fixpoint take (n : nat) (s : string) : string :=
  match n, s with
  | S n', String c s' => String c (take n' s')
  | _, _ => EmptyString
  end.

(** [s[a:b]] for [0 <= a], [0 <= b]. *)
Definition slice (s : string) (a b : nat) : string := take (b - a) (drop a s).

(** [s.count("\n")] *)
Fixpoint count_nl (s : string) : nat :=
  match s with
  | EmptyString => O
  | String c s' => (if is_newline c then 1 else 0) + count_nl s'
  end.

(** [s.rstrip()] *)
Fixpoint rstrip (s : string) : string :=
  match s with
  | EmptyString => EmptyString
  | String c s' =>
      match rstrip s' with
      | EmptyString => if is_space c then EmptyString else String c EmptyString
      | t => String c t
      end
  end.

(** [s.lstrip()] *)
Fixpoint lstrip (s : string) : string :=
  match s with
  | EmptyString => EmptyString
  | String c s' => if is_space c then lstrip s' else s
  end.

(** [s.strip()] *)
Definition strip (s : string) : string := rstrip (lstrip s).

(** [s.endswith(suffix)] *)
Definition endswith (s suffix : string) : bool :=
  String.eqb (drop (String.length s - String.length suffix) s) suffix
  && (String.length suffix <=? String.length s)%nat.

(** [s.split(":", 1)[1] if ":" in s else s] *)
Fixpoint after_first_colon (s : string) : option string :=
  match s with
  | EmptyString => None
  | String c s' => if Ascii.eqb c ":"%char then Some s' else after_first_colon s'
  end.

(** Every character of [s] is in the class. *)
Fixpoint all_chars (cls : ascii -> bool) (s : string) : bool :=
  match s with
  | EmptyString => true
  | String c s' => cls c && all_chars cls s'
  end.

End PyStr.

(** ** The fragment of Python's [re] that the backend uses

    A backtracking matcher with greedy repetition, which is how [re] decides
    which of several possible matches it reports.  Repetition is only ever
    applied to a character class in the patterns of the source, so that is
    the only repetition of the syntax. *)

Module Re.
Import PyStr.

Inductive regex : Type :=
| Bol                              (* ^ under re.M *)
| Wordb                            (* \b *)
| Lit (s : string)                 (* re.escape(s) *)
| One (cls : ascii -> bool)        (* one character of a class *)
| Star (cls : ascii -> bool)       (* cls*, greedy *)
| Plus (cls : ascii -> bool)       (* cls+, greedy *)
| Opt (r : regex)                  (* (?:r)?, greedy *)
| Cap (r : regex)                  (* (?P<name>r) *)
| Seq (r1 r2 : regex).

Infix "⊳" := Seq (at level 62, right associativity).

(** What is left of a match in progress: the character before the cursor,
    the text from the cursor on, the cursor's offset and the span of the
    named group, if it was closed. *)
Definition span : Type := (nat * nat)%type.
Definition cont : Type :=
  option ascii -> string -> nat -> option span -> option (nat * option span).

Definition at_bol (prev : option ascii) : bool :=
  match prev with None => true | Some c => is_newline c end.

Definition word_before (prev : option ascii) : bool :=
  match prev with None => false | Some c => is_word c end.

Definition word_after (rest : string) : bool :=
  match rest with EmptyString => false | String c _ => is_word c end.

Definition at_wordb (prev : option ascii) (rest : string) : bool :=
  negb (Bool.eqb (word_before prev) (word_after rest)).

Fixpoint lit (s : string) (k : cont) : cont := fun prev rest pos cap =>
  match s with
  | EmptyString => k prev rest pos cap
  | String c s' =>
      match rest with
      | String d rest' =>
          if Ascii.eqb c d then lit s' k (Some d) rest' (S pos) cap else None
      | EmptyString => None
      end
  end.

(** Greedy: take one more character first, give it back when the rest of
    the pattern fails. *)
Fixpoint star (cls : ascii -> bool) (k : cont)
    (prev : option ascii) (rest : string) (pos : nat) (cap : option span)
    {struct rest} : option (nat * option span) :=
  match rest with
  | String c rest' =>
      if cls c then
        match star cls k (Some c) rest' (S pos) cap with
        | Some res => Some res
        | None => k prev rest pos cap
        end
      else k prev rest pos cap
  | EmptyString => k prev rest pos cap
  end.

Fixpoint mtch (r : regex) (k : cont) {struct r} : cont :=
  fun prev rest pos cap =>
  match r with
  | Bol => if at_bol prev then k prev rest pos cap else None
  | Wordb => if at_wordb prev rest then k prev rest pos cap else None
  | Lit s => lit s k prev rest pos cap
  | One cls =>
      match rest with
      | String c rest' => if cls c then k (Some c) rest' (S pos) cap else None
      | EmptyString => None
      end
  | Star cls => star cls k prev rest pos cap
  | Plus cls =>
      match rest with
      | String c rest' =>
          if cls c then star cls k (Some c) rest' (S pos) cap else None
      | EmptyString => None
      end
  | Opt r' =>
      match mtch r' k prev rest pos cap with
      | Some res => Some res
      | None => k prev rest pos cap
      end
  | Cap r' =>
      mtch r' (fun prev' rest' pos' _ => k prev' rest' pos' (Some (pos, pos')))
        prev rest pos cap
  | Seq r1 r2 => mtch r1 (mtch r2 k) prev rest pos cap
  end.

Definition accept : cont := fun _ _ pos cap => Some (pos, cap).

(** A match object: [m.span()] and the span of [m.group("name")]. *)
Record rmatch : Type := mkMatch { m_start : nat; m_end : nat; m_name : option span }.

(** The match that starts at the cursor, if there is one. *)
Definition match_here (r : regex) (prev : option ascii) (rest : string) (pos : nat)
  : option rmatch :=
  match mtch r accept prev rest pos None with
  | Some (e, cap) => Some (mkMatch pos e cap)
  | None => None
  end.

(** [re.search]: the leftmost position where the pattern matches. *)
Fixpoint search_from (r : regex) (prev : option ascii) (rest : string) (pos : nat)
  : option rmatch :=
  match match_here r prev rest pos with
  | Some m => Some m
  | None =>
      match rest with
      | String c rest' => search_from r (Some c) rest' (S pos)
      | EmptyString => None
      end
  end.

Definition search (r : regex) (src : string) : option rmatch :=
  search_from r None src 0.

(** [re.finditer]: the matches from left to right, none overlapping; after a
    match the scan resumes where it ended ([skip] counts the positions still
    inside the previous match).  The patterns of the backend match at least
    one character, so the rule of [re] for empty matches never applies. *)
Fixpoint finditer_from (r : regex) (prev : option ascii) (rest : string)
    (pos skip : nat) : list rmatch :=
  match skip with
  | S skip' =>
      match rest with
      | String c rest' => finditer_from r (Some c) rest' (S pos) skip'
      | EmptyString => []
      end
  | O =>
      match match_here r prev rest pos with
      | Some m =>
          m :: match rest with
               | String c rest' =>
                   finditer_from r (Some c) rest' (S pos) (m_end m - pos - 1)
               | EmptyString => []
               end
      | None =>
          match rest with
          | String c rest' => finditer_from r (Some c) rest' (S pos) 0
          | EmptyString => []
          end
      end
  end.

Definition finditer (r : regex) (src : string) : list rmatch :=
  finditer_from r None src 0 0.

(** The character before offset [k] of [rest], when [prev] is the one
    before offset 0: what the scans above carry along. *)
Fixpoint cursor_prev (prev : option ascii) (rest : string) (k : nat) : option ascii :=
  match k, rest with
  | S k', String c rest' => cursor_prev (Some c) rest' k'
  | _, _ => prev
  end.

(** The pattern consumes characters of the class only. *)
Fixpoint within (cls : ascii -> bool) (r : regex) : Prop :=
  match r with
  | Bol | Wordb => True
  | Lit s => all_chars cls s = true
  | One c | Star c | Plus c => forall ch, c ch = true -> cls ch = true
  | Opt r' | Cap r' => within cls r'
  | Seq r1 r2 => within cls r1 /\ within cls r2
  end.

(** [m.group("name")] *)
Definition group_name (src : string) (m : rmatch) : option string :=
  match m_name m with
  | Some (a, b) => Some (slice src a b)
  | None => None
  end.

End Re.

(** ** The syntax trees of tree-sitter

    A node carries what the backend reads from it: [type], [start_point[0]],
    [start_byte], [end_byte], [text] and [children]. *)

Local Unset Elimination Schemes.
Inductive Node : Type :=
  mkNode (ntype : string) (start_line : Z) (start_byte end_byte : nat)
         (text : string) (children : list Node).
Local Set Elimination Schemes.

Definition ntype (n : Node) : string := let 'mkNode t _ _ _ _ _ := n in t.
Definition start_line (n : Node) : Z := let 'mkNode _ l _ _ _ _ := n in l.
Definition start_byte (n : Node) : nat := let 'mkNode _ _ a _ _ _ := n in a.
Definition end_byte (n : Node) : nat := let 'mkNode _ _ _ b _ _ := n in b.
Definition text (n : Node) : string := let 'mkNode _ _ _ _ s _ := n in s.
Definition children (n : Node) : list Node := let 'mkNode _ _ _ _ _ cs := n in cs.

(** Number of nodes of a tree. *)
Fixpoint nsize (n : Node) : nat :=
  let 'mkNode _ _ _ _ _ cs := n in
  S (list_sum (map nsize cs)).

(** The nodes of a subtree, parents before children: what iterating over
    [init_decl.walk()] is meant to visit ("walk its subtree"). *)
Fixpoint walk (n : Node) : list Node :=
  let 'mkNode _ _ _ _ _ cs := n in
  n :: flat_map walk cs.

(** A node together with its chain of ancestors, nearest first: what
    following [n.parent] from it reaches. *)
Record Loc : Type := mkLoc { here : Node; ups : list Node }.

Definition at_root (root : Node) : Loc := mkLoc root [].

Definition kids (l : Loc) : list Loc :=
  map (fun c => mkLoc c (here l :: ups l)) (children (here l)).

(** [n.parent] *)
Definition parent (l : Loc) : option Loc :=
  match ups l with
  | [] => None
  | p :: rest => Some (mkLoc p rest)
  end.

(** ** Records and results *)

(** The dict [{"code": ..., "file": ..., "line": ...}]. *)
Record SymbolRecord : Type := mkRec { code : string; file : string; line : Z }.

(** A Python call either returns or raises. *)
Inductive Res (A : Type) : Type :=
| Ok (a : A)
| Raise.
Arguments Ok {A} a.
Arguments Raise {A}.

(** ** The pure part of the backend *)

Module Backend.
Import PyStr Re.

(** *** Regex helpers *)

Definition cls_global_run (c : ascii) : bool :=
  is_word c || is_space c || Ascii.eqb c "*"%char.

Definition cls_global_end (c : ascii) : bool :=
  Ascii.eqb c "="%char || Ascii.eqb c ";"%char || Ascii.eqb c "{"%char.

Definition cls_not_newline (c : ascii) : bool := negb (is_newline c).

Definition cls_hash (c : ascii) : bool := Ascii.eqb c "#"%char.

(** [^\s*(?:extern\s+)?[\w\s\*]+\b(?P<name>\w+)\b\s*(?:[=;{])] with [re.M] *)
Definition RGX_GLOBAL : regex :=
  Bol ⊳ Star is_space ⊳ Opt (Lit "extern" ⊳ Plus is_space)
  ⊳ Plus cls_global_run ⊳ Wordb ⊳ Cap (Plus is_word) ⊳ Wordb
  ⊳ Star is_space ⊳ One cls_global_end.

(** [RGX_GLOBAL] without its last character. *)
Definition RGX_GLOBAL_head : regex :=
  Bol ⊳ Star is_space ⊳ Opt (Lit "extern" ⊳ Plus is_space)
  ⊳ Plus cls_global_run ⊳ Wordb ⊳ Cap (Plus is_word) ⊳ Wordb
  ⊳ Star is_space.

(** [^\s*#\s*define\s+{re.escape(name)}\b[^\n]*] with [re.M] *)
Definition RGX_MACRO (name : string) : regex :=
  Bol ⊳ Star is_space ⊳ One cls_hash ⊳ Star is_space ⊳ Lit "define"
  ⊳ Plus is_space ⊳ Lit name ⊳ Wordb ⊳ Star cls_not_newline.

Definition _SOURCE_EXTS : list string :=
  ["*.c"; "*.h"; "*.cpp"; "*.cc"; "*.cxx"; "*.hpp"; "*.hh"; "*.hxx"].

(** [re.escape]: a backslash before each character that is special in a
    pattern. *)
Definition re_special : list ascii :=
  list_ascii_of_string "()[]{}?*+-|^$\.&~# "
  ++ ["009"%char; "010"%char; "013"%char; "011"%char; "012"%char].

Fixpoint re_escape (s : string) : string :=
  match s with
  | EmptyString => EmptyString
  | String c s' =>
      if existsb (Ascii.eqb c) re_special
      then String "\"%char (String c (re_escape s'))
      else String c (re_escape s')
  end.

(** *** Kind-specific grep patterns (PCRE, single-line) *)
Definition _grep_pattern (kind name : string) : string :=
  let escaped := re_escape name in
  if String.eqb kind "function" then
    "^\s*(?:static\s+|inline\s+|extern\s+|__\w+__\s+)*[\w\*\s]+\b" ++ escaped ++ "\s*\("
  else if String.eqb kind "macro" then
    "^\s*#\s*define\s+" ++ escaped ++ "\b"
  else if String.eqb kind "global" then
    "^\s*(?:extern\s+)?[\w\s\*\[\]]+\b" ++ escaped ++ "\b\s*(?:[=;{])"
  else if String.eqb kind "typedef" then
    "^\s*typedef\b[^\n]*\b" ++ escaped ++ "\b"
  else if String.eqb kind "struct" then
    "^\s*(?:typedef\s+)?struct\s+\b" ++ escaped ++ "\b"
  else if String.eqb kind "enum" then
    "^\s*(?:typedef\s+)?enum\s+\b" ++ escaped ++ "\b"
  else escaped.

Definition _KINDS : list string :=
  ["function"; "macro"; "global"; "typedef"; "struct"; "enum"].

(** [kind in self._KINDS] *)
Definition in_KINDS (kind : string) : bool := existsb (String.eqb kind) _KINDS.

(** *** Tree-sitter node finders *)

(** [queue.pop()]: the last element of the list, and the list without it. *)
Definition pop {A : Type} (queue : list A) : option (A * list A) :=
  match rev queue with
  | [] => None
  | x :: r => Some (x, rev r)
  end.

(** The loop of [_node_at_line]; one unit of [fuel] per iteration. *)
Fixpoint node_at_line_loop (fuel : nat) (queue : list Loc) (ln : Z) : option Loc :=
  match fuel with
  | O => None
  | S fuel' =>
      match pop queue with
      | None => None
      | Some (n, queue') =>
          if (start_line (here n) =? ln)%Z then Some n
          else node_at_line_loop fuel'
                 (queue' ++ filter (fun c => (start_line (here c) <=? ln)%Z) (kids n))
                 ln
      end
  end.

(** [_node_at_line]: every iteration takes one node of the tree off the
    queue, so the size of the tree bounds the iterations. *)
Definition _node_at_line (root : Node) (ln : Z) : option Loc :=
  node_at_line_loop (S (nsize root)) [at_root root] ln.

(** [while n: if test(n): return n; n = n.parent] *)
Fixpoint climb_from (test : Node -> bool) (n : Node) (anc : list Node) : option Node :=
  if test n then Some n
  else match anc with
       | [] => None
       | p :: anc' => climb_from test p anc'
       end.

Definition climb (test : Node -> bool) (seed : option Loc) : option Node :=
  match seed with
  | None => None
  | Some l => climb_from test (here l) (ups l)
  end.

Definition is_function (ident : string) (n : Node) : bool :=
  String.eqb (ntype n) "function_definition"
  && existsb (fun child =>
        String.eqb (ntype child) "function_declarator"
        && existsb (fun leaf =>
              String.eqb (ntype leaf) "identifier" && String.eqb (text leaf) ident)
             (children child))
       (children n).

Definition is_typedef (ident : string) (n : Node) : bool :=
  String.eqb (ntype n) "type_definition"
  && match List.find (fun c => String.eqb (ntype c) "init_declarator_list") (children n) with
     | None => false
     | Some decl_list =>
         existsb (fun init_decl =>
             existsb (fun leaf =>
                 (String.eqb (ntype leaf) "type_identifier"
                  || String.eqb (ntype leaf) "identifier")
                 && String.eqb (text leaf) ident)
               (walk init_decl))
           (children decl_list)
     end.

Definition is_specifier (spec ident : string) (n : Node) : bool :=
  String.eqb (ntype n) spec
  && match filter (fun c => String.eqb (ntype c) "type_identifier") (children n) with
     | [] => false
     | id0 :: _ => String.eqb (text id0) ident
     end.

Definition _find_function (root : Node) (ident : string) (line_hint : Z) : option Node :=
  climb (is_function ident) (_node_at_line root line_hint).

Definition _find_typedef (root : Node) (ident : string) (line_hint : Z) : option Node :=
  climb (is_typedef ident) (_node_at_line root line_hint).

Definition _find_struct (root : Node) (ident : string) (line_hint : Z) : option Node :=
  climb (is_specifier "struct_specifier" ident) (_node_at_line root line_hint).

Definition _find_enum (root : Node) (ident : string) (line_hint : Z) : option Node :=
  climb (is_specifier "enum_specifier" ident) (_node_at_line root line_hint).

(** The dict of finders of [_extract_symbol]; a missing key raises. *)
Definition finder_of (kind : string)
  : option (Node -> string -> Z -> option Node) :=
  if String.eqb kind "function" then Some _find_function
  else if String.eqb kind "typedef" then Some _find_typedef
  else if String.eqb kind "struct" then Some _find_struct
  else if String.eqb kind "enum" then Some _find_enum
  else None.

Definition is_cpp_path (path : string) : bool :=
  existsb (endswith path) [".cpp"; ".cc"; ".cxx"; ".hpp"; ".hh"; ".hxx"].

Section Extract.

(** [parser.parse(src.encode()).root_node] for the two parsers, and
    [str(Path(repo, path))]. *)
Variable C_PARSER CPP_PARSER : string -> Node.
Variable path_join : string -> string -> string.

Definition _build_rec (repo path src : string) (start end_ : nat) : SymbolRecord :=
  {| code := rstrip (slice src start end_);
     file := path_join repo path;
     line := Z.of_nat (count_nl (slice src 0 start)) |}.

(** The first match of [finditer] whose group ["name"] is [name]. *)
Fixpoint first_named (src name : string) (ms : list rmatch) : option rmatch :=
  match ms with
  | [] => None
  | m :: ms' =>
      match group_name src m with
      | Some g => if String.eqb g name then Some m else first_named src name ms'
      | None => first_named src name ms'
      end
  end.

Definition _extract_symbol (repo : string)
    (src path name kind : string) (line_hint : Z) : Res (option SymbolRecord) :=
  if String.eqb kind "macro" then
    match search (RGX_MACRO name) src with
    | Some m => Ok (Some (_build_rec repo path src (m_start m) (m_end m)))
    | None => Ok None
    end
  else if String.eqb kind "global" then
    match first_named src name (finditer RGX_GLOBAL src) with
    | Some m => Ok (Some (_build_rec repo path src (m_start m) (m_end m)))
    | None => Ok None
    end
  else
    let parser := if is_cpp_path path then CPP_PARSER else C_PARSER in
    let root := parser src in
    match finder_of kind with
    | None => Raise
    | Some finder =>
        match finder root name line_hint with
        | None => Ok None
        | Some node =>
            Ok (Some {| code := slice src (start_byte node) (end_byte node);
                        file := path_join repo path;
                        line := start_line node |})
        end
    end.

End Extract.

End Backend.

(** ** [functools.lru_cache]

    The memo of a function: the cached calls, most recently used first.  A
    hit moves its entry to the front; a miss calls the function, stores the
    result in front and drops the entries beyond [maxsize], the least
    recently used ones. *)

Module Lru.
Section Lru.
Context {K V : Type} `{EqDecision K}.

Definition memo : Type := list (K * V).

Fixpoint remove_key (k : K) (c : memo) : memo :=
  match c with
  | [] => []
  | (k', v) :: c' => if decide (k = k') then c' else (k', v) :: remove_key k c'
  end.

Fixpoint find (k : K) (c : memo) : option V :=
  match c with
  | [] => None
  | (k', v) :: c' => if decide (k = k') then Some v else find k c'
  end.

Definition touch (k : K) (v : V) (c : memo) : memo := (k, v) :: remove_key k c.

(** [maxsize] as [lru_cache] reads it: a negative bound is 0. *)
Definition store (maxsize : Z) (k : K) (v : V) (c : memo) : memo :=
  List.firstn (Z.to_nat maxsize) ((k, v) :: c).

End Lru.
End Lru.

(** ** Git, as the backend calls it

    One field per command line of the source, applied to the arguments that
    vary.  [grep_nP repo pattern commit] is the output of
    [git -C repo grep -nP --full-name -e pattern commit -- *.c ...] with
    every line [commit:file:n:text] already split into [(file, n)];
    [grep_l repo name commit] is the list of output lines of
    [git -C repo grep -l --full-name name commit -- *.c ...];
    [rev_parse repo commit path] is the output of
    [git -C repo rev-parse commit:path], [None] when the exit status is not
    zero ([check_output] raises then); [cat_file repo sha] likewise for
    [git -C repo cat-file -p sha]. *)
Record Git : Type := mkGit {
  grep_nP : string -> string -> string -> list (string * Z);
  grep_l : string -> string -> string -> list string;
  rev_parse : string -> string -> string -> option string;
  cat_file : string -> string -> option string
}.

(** ** The backend object and its state *)

(** A cache key: [(repo, sha, kind, name)], the primary key of table [sym]. *)
Abbreviation Key := (string * string * string * string)%type.

(** A row of table [sym] without its key: [(path, line, code)]. *)
Abbreviation Row := (string * Z * string)%type.

(** What [__init__] fixes. *)
Record SymbolBackend : Type := mkBackend {
  repo : string;
  commit : string;
  lru_size : Z
}.

(** What changes: the warm store (the SQLite table, which outlives the
    object and may be shared), the memo of [_hot_get] and the memo of
    [_blob_sha]. *)
Record State : Type := mkState {
  db : gmap Key Row;
  hot : list (Key * option SymbolRecord);
  sha_memo : list (string * string)
}.

(** What a call does to the outside, in order. *)
Inductive Event : Type :=
| EvGrepP (pattern : string)
| EvGrepL (name : string)
| EvRevParse (path : string)
| EvCatFile (sha : string)
| EvSelect (k : Key)
| EvReplace (k : Key) (row : Row)
| EvExtract (path : string) (line_hint : Z)
| EvHotClear.

(** A method: from a state to a result, the next state and the events. *)
Definition M (A : Type) : Type := State -> Res A * State * list Event.

Definition ret {A : Type} (a : A) : M A := fun s => (Ok a, s, []).

Definition raise {A : Type} : M A := fun s => (Raise, s, []).

Definition bind {A B : Type} (m : M A) (f : A -> M B) : M B := fun s =>
  match m s with
  | (Ok a, s1, t1) => let '(r, s2, t2) := f a s1 in (r, s2, (t1 ++ t2)%list)
  | (Raise, s1, t1) => (Raise, s1, t1)
  end.

Definition emit (e : Event) : M unit := fun s => (Ok tt, s, [e]).

Definition lift {A : Type} (r : Res A) : M A := fun s => (r, s, []).

Declare Scope py_scope.
Delimit Scope py_scope with py.
Notation "'let*' x := m 'in' k" := (bind m (fun x => k))
  (at level 10, x pattern, m at level 100, k at level 200) : py_scope.
Notation "m ;;; k" := (bind m (fun _ => k))
  (at level 100, k at level 200, right associativity) : py_scope.

Definition result {A : Type} (x : Res A * State * list Event) : Res A := x.1.1.
Definition state_of {A : Type} (x : Res A * State * list Event) : State := x.1.2.
Definition trace {A : Type} (x : Res A * State * list Event) : list Event := x.2.

Module Sym.
Import PyStr Backend.
Local Open Scope py_scope.

Section Methods.

Variable C_PARSER CPP_PARSER : string -> Node.
Variable path_join : string -> string -> string.
Variable git : Git.
Variable self : SymbolBackend.

(** *** Warm-store helpers (SQLite) *)

Definition _warm_get (k : Key) : M (option SymbolRecord) := fun s =>
  (Ok match db s !! k with
      | Some (path, ln, cd) => Some {| code := cd; file := path; line := ln |}
      | None => None
      end,
   s, [EvSelect k]).

Definition _warm_put (k : Key) (rec : SymbolRecord) : M unit := fun s =>
  let row := (file rec, line rec, code rec) in
  (Ok tt,
   {| db := <[k := row]> (db s); hot := hot s; sha_memo := sha_memo s |},
   [EvReplace k row]).

(** [self._hot_get = lru_cache(maxsize=lru_size)(self._warm_get)] *)
Definition _hot_get (k : Key) : M (option SymbolRecord) := fun s =>
  match Lru.find k (hot s) with
  | Some v =>
      (Ok v, {| db := db s; hot := Lru.touch k v (hot s); sha_memo := sha_memo s |}, [])
  | None =>
      match _warm_get k s with
      | (Ok v, s1, t) =>
          (Ok v,
           {| db := db s1; hot := Lru.store (lru_size self) k v (hot s1);
              sha_memo := sha_memo s1 |}, t)
      | (Raise, s1, t) => (Raise, s1, t)
      end
  end.

(** [self._hot_get.cache_clear()] *)
Definition hot_cache_clear : M unit := fun s =>
  (Ok tt, {| db := db s; hot := []; sha_memo := sha_memo s |}, [EvHotClear]).

(** *** Git helpers *)

Definition _grep_candidates (name kind : string) : M (list (string * Z)) :=
  let pattern := _grep_pattern kind name in
  emit (EvGrepP pattern) ;;;
  match grep_nP git (repo self) pattern (commit self) with
  | (_ :: _) as hits => ret (map (fun '(f, n) => (f, (n - 1)%Z)) hits)
  | [] =>
      emit (EvGrepL name) ;;;
      ret (map (fun f => (match after_first_colon f with
                          | Some p => p
                          | None => f
                          end, 0%Z))
             (grep_l git (repo self) name (commit self)))
  end.

(** [@lru_cache(maxsize=100_000)]; a call that raises is not stored. *)
Definition _blob_sha (path : string) : M string := fun s =>
  match Lru.find path (sha_memo s) with
  | Some v =>
      (Ok v, {| db := db s; hot := hot s; sha_memo := Lru.touch path v (sha_memo s) |}, [])
  | None =>
      match rev_parse git (repo self) (commit self) path with
      | Some out =>
          let v := strip out in
          (Ok v,
           {| db := db s; hot := hot s;
              sha_memo := Lru.store 100000 path v (sha_memo s) |},
           [EvRevParse path])
      | None => (Raise, s, [EvRevParse path])
      end
  end.

Definition _git_show (sha : string) : M string :=
  emit (EvCatFile sha) ;;;
  match cat_file git (repo self) sha with
  | Some out => ret out
  | None => raise
  end.

(** *** Core lookup (lazy and cached) *)

Definition extract (src path name kind : string) (line_hint : Z)
  : M (option SymbolRecord) :=
  emit (EvExtract path line_hint) ;;;
  lift (_extract_symbol C_PARSER CPP_PARSER path_join (repo self)
          src path name kind line_hint).

(** The [for] loop of [_lookup]. *)
Fixpoint lookup_loop (name kind : string) (cands : list (string * Z))
  : M (option SymbolRecord) :=
  match cands with
  | [] => ret None
  | (file_path, line_no) :: rest =>
      let* sha := _blob_sha file_path in
      let* cached_row := _hot_get (repo self, sha, kind, name) in
      match cached_row with
      | Some row => ret (Some row)
      | None =>
          let* source := _git_show sha in
          let* rec := extract source file_path name kind line_no in
          match rec with
          | Some r =>
              _warm_put (repo self, sha, kind, name) r ;;;
              hot_cache_clear ;;;
              ret (Some r)
          | None => lookup_loop name kind rest
          end
      end
  end.

Definition _lookup (name kind : string) : M (option SymbolRecord) :=
  if negb (in_KINDS kind) then ret None
  else
    let* cands := _grep_candidates name kind in
    lookup_loop name kind cands.

(** *** Public API *)
Definition get_def (name : string) := _lookup name "function".
Definition get_macro (name : string) := _lookup name "macro".
Definition get_global (name : string) := _lookup name "global".
Definition get_typedef (name : string) := _lookup name "typedef".
Definition get_struct (name : string) := _lookup name "struct".
Definition get_enum (name : string) := _lookup name "enum".

End Methods.
End Sym.

(** ** A small repository to run the backend on

    Three source files and a header, seen at four commits of one
    repository, with the trees tree-sitter builds for them. *)

Module Demo.
Import PyStr Backend.

Definition path_join (a b : string) : string := a ++ "/" ++ b.

Definition leaf (t : string) (ln : Z) (a b : nat) (s : string) : Node :=
  mkNode t ln a b s [].

(** [util.c]: a comment, then a function on one line. *)
Definition src_util : string :=
  "/* util */" ++ nl ++ "int add(int a, int b) { return a + b; }" ++ nl.

Definition fn_add : Node :=
  mkNode "function_definition" 1 11 50 "int add(int a, int b) { return a + b; }"
    [ leaf "primitive_type" 1 11 14 "int";
      mkNode "function_declarator" 1 15 32 "add(int a, int b)"
        [ leaf "identifier" 1 15 18 "add";
          leaf "parameter_list" 1 18 32 "(int a, int b)" ];
      leaf "compound_statement" 1 33 50 "{ return a + b; }" ].

Definition tree_util : Node :=
  mkNode "translation_unit" 0 0 51 src_util
    [ leaf "comment" 0 0 10 "/* util */"; fn_add ].

(** [main.c]: a caller of [add]. *)
Definition src_main : string :=
  "int main(void) {" ++ nl ++ "  return add(1, 2);" ++ nl ++ "}" ++ nl.

Definition tree_main : Node :=
  mkNode "translation_unit" 0 0 39 src_main
    [ mkNode "function_definition" 0 0 38 (slice src_main 0 38)
        [ leaf "primitive_type" 0 0 3 "int";
          mkNode "function_declarator" 0 4 14 "main(void)"
            [ leaf "identifier" 0 4 8 "main";
              leaf "parameter_list" 0 8 14 "(void)" ];
          mkNode "compound_statement" 0 15 38 (slice src_main 15 38)
            [ leaf "{" 0 15 16 "{";
              mkNode "return_statement" 1 19 36 "return add(1, 2);"
                [ leaf "return" 1 19 25 "return";
                  mkNode "call_expression" 1 26 35 "add(1, 2)"
                    [ leaf "identifier" 1 26 29 "add";
                      leaf "argument_list" 1 29 35 "(1, 2)" ];
                  leaf ";" 1 35 36 ";" ];
              leaf "}" 2 37 38 "}" ] ] ].

(** [wide.c]: a function whose declaration is spread over several lines,
    which the single-line grep pattern for functions does not match. *)
Definition src_wide : string :=
  "/* wide */" ++ nl ++ "int" ++ nl ++ "mul(int a, int b)" ++ nl
  ++ "{" ++ nl ++ "  return a * b;" ++ nl ++ "}" ++ nl.

Definition fn_mul : Node :=
  mkNode "function_definition" 1 11 52 (slice src_wide 11 52)
    [ leaf "primitive_type" 1 11 14 "int";
      mkNode "function_declarator" 2 15 32 "mul(int a, int b)"
        [ leaf "identifier" 2 15 18 "mul";
          leaf "parameter_list" 2 18 32 "(int a, int b)" ];
      leaf "compound_statement" 3 33 52 (slice src_wide 33 52) ].

Definition tree_wide : Node :=
  mkNode "translation_unit" 0 0 53 src_wide
    [ leaf "comment" 0 0 10 "/* wide */"; fn_mul ].

(** [defs.h]: an include, a blank line, a macro, an array. *)
Definition src_defs : string :=
  "#include <stddef.h>" ++ nl ++ nl ++ "#define MAX_LEN 256" ++ nl
  ++ "int buf[10];" ++ nl.

(** The parser on the three C files of the repository; a text that is
    none of them gets a bare root, which no lookup below asks for. *)
Definition parse (src : string) : Node :=
  if String.eqb src src_util then tree_util
  else if String.eqb src src_main then tree_main
  else if String.eqb src src_wide then tree_wide
  else mkNode "translation_unit" 0 0 (String.length src) src [].

(** Commit [c1] has [util.c], [wide.c] and [defs.h]; [c2] is a later commit
    that did not touch them; [c3] adds [main.c]; [c4] adds [copy/util.c], a
    copy of [util.c], and lists a header [gone.h] that cannot be resolved. *)
Definition grep_nP (repo pattern commit : string) : list (string * Z) :=
  if String.eqb pattern (_grep_pattern "function" "add") then
    if String.eqb commit "c3" then [("main.c", 2%Z); ("util.c", 2%Z)]
    else if String.eqb commit "c4" then [("copy/util.c", 2%Z); ("util.c", 2%Z)]
    else [("util.c", 2%Z)]
  else if String.eqb pattern (_grep_pattern "macro" "MAX_LEN") then
    if String.eqb commit "c4" then [("gone.h", 1%Z); ("defs.h", 3%Z)]
    else [("defs.h", 3%Z)]
  else [].

Definition grep_l (repo name commit : string) : list string :=
  if String.eqb name "mul" then [commit ++ ":wide.c"]
  else if String.eqb name "buf" then [commit ++ ":defs.h"]
  else [].

Definition rev_parse (repo commit path : string) : option string :=
  if String.eqb path "util.c" then Some ("b10b" ++ nl)
  else if String.eqb path "copy/util.c" then Some ("b10b" ++ nl)
  else if String.eqb path "main.c" then Some ("3a17" ++ nl)
  else if String.eqb path "wide.c" then Some ("77de" ++ nl)
  else if String.eqb path "defs.h" then Some ("d3f5" ++ nl)
  else None.

Definition cat_file (repo sha : string) : option string :=
  if String.eqb sha "b10b" then Some src_util
  else if String.eqb sha "3a17" then Some src_main
  else if String.eqb sha "77de" then Some src_wide
  else if String.eqb sha "d3f5" then Some src_defs
  else None.

Definition git : Git := mkGit grep_nP grep_l rev_parse cat_file.

Definition backend (commit : string) : SymbolBackend :=
  {| repo := "/srv/repo"; commit := commit; lru_size := 20000 |}.

(** A new store and a new object. *)
Definition fresh : State := {| db := ∅; hot := []; sha_memo := [] |}.

(** A new object on a store that is already there. *)
Definition attach (s : State) : State :=
  {| db := db s; hot := []; sha_memo := [] |}.

Definition lookup (commit name kind : string) : M (option SymbolRecord) :=
  Sym._lookup parse parse path_join git (backend commit) name kind.

(** [globals.c]: two global variables. *)
Definition src_globals : string :=
  "int x = 1;" ++ nl ++ "static int *y;" ++ nl.

(** The record of [y] in [globals.c]. *)
Definition rec_y : SymbolRecord :=
  {| code := "static int *y;"; file := "/srv/repo/globals.c"; line := 1 |}.

(** The record the extractor returns for [MAX_LEN] in [defs.h]. *)
Definition rec_max_len : SymbolRecord :=
  {| code := nl ++ "#define MAX_LEN 256"; file := "/srv/repo/defs.h"; line := 1 |}.

(** The record of [add] in [util.c]. *)
Definition rec_add : SymbolRecord :=
  {| code := "int add(int a, int b) { return a + b; }";
     file := "/srv/repo/util.c";
     line := 1 |}.

End Demo.

(** ** What the caches stand for

    The memos are transparent when they agree with what they memoise.  The
    definitions below say what that means and give the lookup without any
    memo, as a function of the warm store alone, against which the stateful
    methods are proved. *)

Module Ref.
Import PyStr Backend.

Definition rec_of_row (row : Row) : SymbolRecord :=
  let '(path, ln, cd) := row in {| code := cd; file := path; line := ln |}.

Definition row_of_rec (r : SymbolRecord) : Row := (file r, line r, code r).

(** The answer of [_warm_get] on a store. *)
Definition warm (d : gmap Key Row) (k : Key) : option SymbolRecord :=
  rec_of_row <$> d !! k.

Section Ref.

Variable C_PARSER CPP_PARSER : string -> Node.
Variable path_join : string -> string -> string.
Variable git : Git.
Variable self : SymbolBackend.

(** [git rev-parse] without the memo. *)
Definition blob (path : string) : Res string :=
  match rev_parse git (repo self) (commit self) path with
  | Some out => Ok (strip out)
  | None => Raise
  end.

(** Every memoised [_warm_get] is what the store answers now. *)
Definition hot_ok (s : State) : Prop :=
  Forall (fun e => warm (db s) e.1 = e.2) (hot s).

(** Every memoised [_blob_sha] is what git answers. *)
Definition memo_ok (s : State) : Prop :=
  Forall (fun e => blob e.1 = Ok e.2) (sha_memo s).

Definition coherent (s : State) : Prop := hot_ok s /\ memo_ok s.

(** The candidates of [_grep_candidates]. *)
Definition candidates (name kind : string) : list (string * Z) :=
  match grep_nP git (repo self) (_grep_pattern kind name) (commit self) with
  | (_ :: _) as hits => map (fun '(f, n) => (f, (n - 1)%Z)) hits
  | [] =>
      map (fun f => (match after_first_colon f with
                     | Some p => p
                     | None => f
                     end, 0%Z))
        (grep_l git (repo self) name (commit self))
  end.

Definition key_of (sha kind name : string) : Key := (repo self, sha, kind, name).

Definition extract_pure (src path name kind : string) (line_hint : Z)
  : Res (option SymbolRecord) :=
  _extract_symbol C_PARSER CPP_PARSER path_join (repo self) src path name kind line_hint.

(** The candidate loop on a store: the result and the store afterwards. *)
Fixpoint loop_pure (name kind : string) (d : gmap Key Row)
    (cands : list (string * Z)) : Res (option SymbolRecord) * gmap Key Row :=
  match cands with
  | [] => (Ok None, d)
  | (f, h) :: rest =>
      match blob f with
      | Raise => (Raise, d)
      | Ok sha =>
          match warm d (key_of sha kind name) with
          | Some r => (Ok (Some r), d)
          | None =>
              match cat_file git (repo self) sha with
              | None => (Raise, d)
              | Some src =>
                  match extract_pure src f name kind h with
                  | Raise => (Raise, d)
                  | Ok (Some r) =>
                      (Ok (Some r), <[key_of sha kind name := row_of_rec r]> d)
                  | Ok None => loop_pure name kind d rest
                  end
              end
          end
      end
  end.

Definition lookup_pure (name kind : string) (d : gmap Key Row)
  : Res (option SymbolRecord) * gmap Key Row :=
  if negb (in_KINDS kind) then (Ok None, d)
  else loop_pure name kind d (candidates name kind).

(** A candidate that neither ends the lookup nor raises on store [d]: its
    hash resolves, the store has no row for it, its text is read and the
    extractor finds nothing in it. *)
Definition passes (name kind : string) (d : gmap Key Row) (c : string * Z) : Prop :=
  exists sha src,
    blob c.1 = Ok sha /\
    d !! key_of sha kind name = None /\
    cat_file git (repo self) sha = Some src /\
    extract_pure src c.1 name kind c.2 = Ok None.

(** Every row of the store under this repository is a record the extractor
    returned for the row's kind and name. *)
Definition verified (d : gmap Key Row) : Prop :=
  forall sha kind name row,
    d !! key_of sha kind name = Some row ->
    exists src path hint,
      extract_pure src path name kind hint = Ok (Some (rec_of_row row)).


(** The state after a series of calls [_lookup(name, kind)]. *)
Definition after (qs : list (string * string)) (s : State) : State :=
  fold_left
    (fun s q => state_of (Sym._lookup C_PARSER CPP_PARSER path_join git self q.1 q.2 s))
    qs s.

End Ref.

(** Counting events. *)
Definition is_extract (e : Event) : bool :=
  match e with EvExtract _ _ => true | _ => false end.

Definition is_write (e : Event) : bool :=
  match e with EvReplace _ _ | EvHotClear => true | _ => false end.

Definition is_fetch (e : Event) : bool :=
  match e with EvCatFile _ => true | _ => false end.


End Ref.

(** ** The caller: [ContextAgent._fetch_symbol]
    ([src/agents/context_agent.py]) *)

Module Agent.
Import PyStr Backend.

(** [str.lower] on one code point below 256. *)
Definition lower_char (c : ascii) : ascii :=
  let n := ord c in
  if between 65 90 n || between 192 214 n || between 216 222 n
  then ascii_of_nat (n + 32)
  else c.

(** [s.lower()] *)
Fixpoint lower (s : string) : string :=
  match s with
  | EmptyString => EmptyString
  | String c s' => String (lower_char c) (lower s')
  end.

Section Agent.

Variable C_PARSER CPP_PARSER : string -> Node.
Variable path_join : string -> string -> string.
Variable git : Git.

(** [self.backend], a [SymbolBackend]. *)
Variable backend : SymbolBackend.

(** [_fetch_symbol].  The handler of [AttributeError] is for a backend
    without the method asked for; a [SymbolBackend] has all six, and what
    its methods raise is not an [AttributeError], so it passes through. *)
Definition _fetch_symbol (name kind : string) : M (option SymbolRecord) :=
  let kind := lower kind in
  if String.eqb kind "function" then
    Sym.get_def C_PARSER CPP_PARSER path_join git backend name
  else if String.eqb kind "macro" then
    Sym.get_macro C_PARSER CPP_PARSER path_join git backend name
  else if String.eqb kind "global" then
    Sym.get_global C_PARSER CPP_PARSER path_join git backend name
  else if String.eqb kind "typedef" then
    Sym.get_typedef C_PARSER CPP_PARSER path_join git backend name
  else if String.eqb kind "struct" then
    Sym.get_struct C_PARSER CPP_PARSER path_join git backend name
  else if String.eqb kind "enum" then
    Sym.get_enum C_PARSER CPP_PARSER path_join git backend name
  else ret None.

End Agent.
End Agent.

(** ** Well-formed trees

    What holds of every tree a parser builds and the finders rely on. *)

Module Tree.
Import Backend.

(** No node starts before its parent. *)
Fixpoint monotone (n : Node) : bool :=
  let 'mkNode _ ln _ _ _ cs := n in
  forallb (fun c => (ln <=? start_line c)%Z && monotone c) cs.

(** The located nodes of the tree under [root]. *)
Inductive located (root : Node) : Loc -> Prop :=
| located_root : located root (at_root root)
| located_kid l c : located root l -> In c (kids l) -> located root c.

(** From [l], a node that starts on line [ln] can be reached through
    children that do not start after [ln]: the steps [_node_at_line]
    takes. *)
Inductive reach (ln : Z) : Loc -> Prop :=
| reach_here l : start_line (here l) = ln -> reach ln l
| reach_kid l c :
    In c (kids l) -> (start_line (here c) <= ln)%Z -> reach ln c -> reach ln l.

(** The loop of [_node_at_line] with its iterations counted.  An iteration
    is one pass through the body of [while queue:], that is one [pop]; the
    test of an empty queue that ends the loop is none.  The result is
    [None] when [fuel] iterations do not bring the loop to its end, and
    otherwise the value returned with the number of iterations made. *)
Fixpoint node_at_line_run (fuel : nat) (queue : list Loc) (ln : Z)
  : option (option Loc * nat) :=
  match pop queue with
  | None => Some (None, 0)
  | Some (n, queue') =>
      match fuel with
      | O => None
      | S fuel' =>
          if (start_line (here n) =? ln)%Z then Some (Some n, 1)
          else
            match node_at_line_run fuel'
                    (queue' ++ filter (fun c => (start_line (here c) <=? ln)%Z) (kids n))
                    ln with
            | Some (r, k) => Some (r, S k)
            | None => None
            end
      end
  end.

(** The tree [_extract_symbol] builds for the text [src] of the file
    [path]: that of the C++ parser for a C++ suffix, of the C parser
    otherwise. *)
Definition tree_of (C_PARSER CPP_PARSER : string -> Node) (path src : string) : Node :=
  (if is_cpp_path path then CPP_PARSER else C_PARSER) src.

(** The root of a parsed file: a [translation_unit] on a line that is not
    negative, above a tree in which no node starts before its parent. *)
Definition rooted (root : Node) : bool :=
  monotone root && (0 <=? start_line root)%Z
  && String.eqb (ntype root) "translation_unit".

End Tree.

(** * Properties *)

(** ** The memo of [lru_cache] *)

Section LruFacts.
Context {K V : Type} `{EqDecision K}.
Implicit Types (c : list (K * V)) (P : K * V -> Prop).

Lemma lru_find_Forall P c k v :
  Forall P c -> Lru.find k c = Some v -> P (k, v).
Proof.
  induction 1 as [|[k' v'] c HP _ IH]; simpl; [discriminate|].
  destruct (decide (k = k')) as [->|_]; [|exact IH].
  intros [= ->]. exact HP.
Qed.

Lemma lru_remove_key_Forall P c k :
  Forall P c -> Forall P (Lru.remove_key k c).
Proof.
  induction 1 as [|[k' v'] c HP Hc IH]; simpl; [constructor|].
  destruct (decide (k = k')); [exact Hc|constructor; assumption].
Qed.

Lemma lru_touch_Forall P c k v :
  Forall P c -> P (k, v) -> Forall P (Lru.touch k v c).
Proof.
  intros Hc HP. constructor; [exact HP|]. by apply lru_remove_key_Forall.
Qed.

Lemma lru_store_Forall P c maxsize k v :
  Forall P c -> P (k, v) -> Forall P (Lru.store maxsize k v c).
Proof.
  intros Hc HP. unfold Lru.store.
  apply Forall_forall. intros x Hx.
  apply (subseteq_take (Z.to_nat maxsize)) in Hx.
  apply elem_of_cons in Hx as [->|Hx]; [exact HP|].
  rewrite Forall_forall in Hc. by apply Hc.
Qed.

End LruFacts.

(** ** The methods against the memo-free lookup *)

Module SymFacts.
Import PyStr Backend Ref.

Lemma rec_of_row_of_rec r : rec_of_row (row_of_rec r) = r.
Proof. by destruct r. Qed.



Lemma warm_None d k : warm d k = None <-> d !! k = None.
Proof. unfold warm. by destruct (d !! k). Qed.

Lemma bind_Ok {A B : Type} (m : M A) (f : A -> M B) s a s1 t1 :
  m s = (Ok a, s1, t1) ->
  bind m f s = (result (f a s1), state_of (f a s1), (t1 ++ trace (f a s1))%list).
Proof. unfold bind. intros ->. by destruct (f a s1) as [[r s2] t2]. Qed.

Lemma bind_Raise {A B : Type} (m : M A) (f : A -> M B) s s1 t1 :
  m s = (Raise, s1, t1) -> bind m f s = (Raise, s1, t1).
Proof. unfold bind. by intros ->. Qed.


(** Reduce the projections of an explicit triple. *)
Ltac triple :=
  repeat match goal with
         | |- context [result (?r, ?s, ?t)] => change (result (r, s, t)) with r
         | |- context [state_of (?r, ?s, ?t)] => change (state_of (r, s, t)) with s
         | |- context [trace (?r, ?s, ?t)] => change (trace (r, s, t)) with t
         end.

Section Facts.

Variable C_PARSER CPP_PARSER : string -> Node.
Variable path_join : string -> string -> string.
Variable git : Git.
Variable self : SymbolBackend.

Local Abbreviation _lookup := (Sym._lookup C_PARSER CPP_PARSER path_join git self).
Local Abbreviation lookup_loop := (Sym.lookup_loop C_PARSER CPP_PARSER path_join git self).
Local Abbreviation loop_pure := (Ref.loop_pure C_PARSER CPP_PARSER path_join git self).
Local Abbreviation lookup_pure := (Ref.lookup_pure C_PARSER CPP_PARSER path_join git self).
Local Abbreviation extract_pure := (Ref.extract_pure C_PARSER CPP_PARSER path_join self).
Local Abbreviation blob := (Ref.blob git self).
Local Abbreviation hot_ok := (Ref.hot_ok).
Local Abbreviation memo_ok := (Ref.memo_ok git self).
Local Abbreviation coherent := (Ref.coherent git self).
Local Abbreviation key_of := (Ref.key_of self).

Lemma warm_get_spec k s :
  Sym._warm_get k s = (Ok (warm (db s) k), s, [EvSelect k]).
Proof.
  unfold Sym._warm_get, warm. destruct (db s !! k) as [[[p l] c]|]; reflexivity.
Qed.

(** [_hot_get] answers as the store does when its memo agrees with the
    store, and keeps it so. *)
Lemma hot_get_spec k s :
  hot_ok s ->
  exists s' t,
    Sym._hot_get self k s = (Ok (warm (db s) k), s', t) /\
    db s' = db s /\ sha_memo s' = sha_memo s /\ hot_ok s' /\
    (t = [] \/ t = [EvSelect k]).
Proof.
  intros Hhot. unfold Sym._hot_get.
  destruct (Lru.find k (hot s)) as [v|] eqn:Hfind.
  - pose proof (lru_find_Forall _ _ _ _ Hhot Hfind) as Hv. simpl in Hv.
    eexists _, _. split; [by rewrite Hv|]. simpl.
    repeat split; [|by left].
    apply lru_touch_Forall; [exact Hhot|exact Hv].
  - rewrite warm_get_spec. eexists _, _. split; [reflexivity|]. simpl.
    repeat split; [|by right].
    apply lru_store_Forall; [exact Hhot|reflexivity].
Qed.

(** [_blob_sha] answers as git does when its memo agrees with git. *)
Lemma blob_sha_spec path s :
  memo_ok s ->
  exists s' t,
    Sym._blob_sha git self path s = (blob path, s', t) /\
    db s' = db s /\ hot s' = hot s /\ memo_ok s' /\
    (t = [] \/ t = [EvRevParse path]).
Proof.
  intros Hmemo. unfold Sym._blob_sha.
  destruct (Lru.find path (sha_memo s)) as [v|] eqn:Hfind.
  - pose proof (lru_find_Forall _ _ _ _ Hmemo Hfind) as Hv. simpl in Hv.
    eexists _, _. split; [by rewrite Hv|]. simpl.
    repeat split; [|by left].
    apply lru_touch_Forall; [exact Hmemo|exact Hv].
  - unfold Ref.blob.
    destruct (rev_parse git (repo self) (commit self) path) as [out|] eqn:Hrev.
    + eexists _, _. split; [reflexivity|]. simpl.
      repeat split; [|by right].
      apply lru_store_Forall; [exact Hmemo|].
      simpl. unfold Ref.blob. by rewrite Hrev.
    + eexists _, _. split; [reflexivity|]. simpl.
      repeat split; [exact Hmemo|by right].
Qed.

Lemma grep_candidates_spec name kind s :
  exists t,
    Sym._grep_candidates git self name kind s
    = (Ok (Ref.candidates git self name kind), s, t) /\
    (t = [EvGrepP (_grep_pattern kind name)]
     \/ t = [EvGrepP (_grep_pattern kind name); EvGrepL name]).
Proof.
  unfold Sym._grep_candidates, Ref.candidates, bind, emit, ret.
  destruct (grep_nP git (repo self) (_grep_pattern kind name) (commit self));
    eexists; (split; [reflexivity|]); [by right|by left].
Qed.

Lemma git_show_spec sha s :
  Sym._git_show git self sha s
  = (match cat_file git (repo self) sha with Some out => Ok out | None => Raise end,
     s, [EvCatFile sha]).
Proof.
  unfold Sym._git_show, bind, emit, ret, raise.
  by destruct (cat_file git (repo self) sha).
Qed.

Lemma extract_spec src path name kind hint s :
  Sym.extract C_PARSER CPP_PARSER path_join self src path name kind hint s
  = (extract_pure src path name kind hint, s, [EvExtract path hint]).
Proof. reflexivity. Qed.

Lemma coherent_same s s' :
  db s' = db s -> hot s' = hot s -> sha_memo s' = sha_memo s ->
  coherent s -> coherent s'.
Proof.
  unfold Ref.coherent, Ref.hot_ok, Ref.memo_ok.
  by intros -> -> ->.
Qed.

(** The candidate loop computes the memo-free loop on the warm store, and
    leaves the memos in agreement. *)
Lemma loop_spec name kind cands : forall s,
  coherent s ->
  let x := lookup_loop name kind cands s in
  result x = (loop_pure name kind (db s) cands).1 /\
  db (state_of x) = (loop_pure name kind (db s) cands).2 /\
  coherent (state_of x).
Proof.
  induction cands as [|[f h] rest IH]; intros s [Hhot Hmemo]; simpl.
  { by repeat split. }
  destruct (blob_sha_spec f s Hmemo) as (s1 & t1 & E1 & Hdb1 & Hhot1 & Hmemo1 & _).
  assert (Hco1 : coherent s1).
  { split; [|exact Hmemo1]. unfold Ref.hot_ok. by rewrite Hdb1, Hhot1. }
  destruct (blob f) as [sha|] eqn:Hblob; cycle 1.
  { rewrite (bind_Raise _ _ _ _ _ E1). triple. by split_and!. }
  rewrite (bind_Ok _ _ _ _ _ _ E1).
  destruct (hot_get_spec (repo self, sha, kind, name) s1 (proj1 Hco1))
    as (s2 & t2 & E2 & Hdb2 & Hmemo2 & Hhot2 & _).
  rewrite (bind_Ok _ _ _ _ _ _ E2).
  unfold Ref.key_of. rewrite <- Hdb1.
  assert (Hco2 : coherent s2).
  { split; [exact Hhot2|]. unfold Ref.memo_ok. by rewrite Hmemo2. }
  destruct (warm (db s1) (repo self, sha, kind, name)) as [row|] eqn:Hwarm.
  { unfold ret. triple. by split_and!. }
  pose proof (git_show_spec sha s2) as Eshow.
  destruct (cat_file git (repo self) sha) as [src|]; cycle 1.
  { rewrite (bind_Raise _ _ _ _ _ Eshow). triple. by split_and!. }
  rewrite (bind_Ok _ _ _ _ _ _ Eshow).
  pose proof (extract_spec src f name kind h s2) as Eex.
  destruct (extract_pure src f name kind h) as [[r|]|]; cycle 2.
  { rewrite (bind_Raise _ _ _ _ _ Eex). triple. by split_and!. }
  { rewrite (bind_Ok _ _ _ _ _ _ Eex).
    unfold bind, Sym._warm_put, Sym.hot_cache_clear, ret. triple. simpl.
    split_and!; [done|by rewrite Hdb2|split; [constructor|]].
    unfold Ref.memo_ok. simpl. by rewrite Hmemo2. }
  rewrite (bind_Ok _ _ _ _ _ _ Eex).
  rewrite <- Hdb2. by apply IH.
Qed.

Lemma lookup_spec name kind s :
  coherent s ->
  let x := _lookup name kind s in
  result x = (lookup_pure name kind (db s)).1 /\
  db (state_of x) = (lookup_pure name kind (db s)).2 /\
  coherent (state_of x).
Proof.
  intros Hco. unfold Sym._lookup, Ref.lookup_pure.
  destruct (negb (in_KINDS kind)); [by split_and!|].
  destruct (grep_candidates_spec name kind s) as (t & E & _).
  rewrite (bind_Ok _ _ _ _ _ _ E). by apply loop_spec.
Qed.

(** *** The memo-free loop *)

(** The loop leaves the store alone or adds the one row it returns, which
    the extractor produced. *)
Lemma loop_pure_store name kind cands : forall d r d',
  loop_pure name kind d cands = (r, d') ->
  d' = d \/
  exists sha r', r = Ok (Some r') /\
    d' = <[key_of sha kind name := row_of_rec r']> d /\
    exists src f h, extract_pure src f name kind h = Ok (Some r').
Proof.
  induction cands as [|[f h] rest IH]; intros d r d'; simpl.
  { intros [= <- <-]. by left. }
  destruct (blob f) as [sha|]; [|intros [= <- <-]; by left].
  destruct (warm d (key_of sha kind name)); [intros [= <- <-]; by left|].
  destruct (cat_file git (repo self) sha) as [src|]; [|intros [= <- <-]; by left].
  destruct (extract_pure src f name kind h) as [[r0|]|] eqn:Hex.
  - intros [= <- <-]. right. exists sha, r0. split_and!; [done|done|by exists src, f, h].
  - apply IH.
  - intros [= <- <-]. by left.
Qed.




Lemma lookup_pure_store name kind d :
  (lookup_pure name kind d).2 = d \/
  exists sha r', (lookup_pure name kind d).1 = Ok (Some r') /\
    (lookup_pure name kind d).2 = <[key_of sha kind name := row_of_rec r']> d /\
    exists src f h, extract_pure src f name kind h = Ok (Some r').
Proof.
  unfold Ref.lookup_pure. destruct (negb (in_KINDS kind)); [by left|].
  destruct (loop_pure name kind d _) as [r d'] eqn:E.
  destruct (loop_pure_store _ _ _ _ _ _ E) as [->|(sha & r' & -> & -> & Hex)];
    [by left|].
  right. by exists sha, r'.
Qed.





(** *** What a lookup does to the outside *)

Lemma blob_sha_effect path s :
  let x := Sym._blob_sha git self path s in
  db (state_of x) = db s /\ hot (state_of x) = hot s /\
  (trace x = [] \/ trace x = [EvRevParse path]).
Proof.
  unfold Sym._blob_sha.
  destruct (Lru.find path (sha_memo s)); [by split_and!; [..|left]|].
  destruct (rev_parse git (repo self) (commit self) path);
    by split_and!; [..|right].
Qed.

Lemma hot_get_effect k s :
  let x := Sym._hot_get self k s in
  db (state_of x) = db s /\ sha_memo (state_of x) = sha_memo s /\
  (trace x = [] \/ trace x = [EvSelect k]) /\
  exists v, result x = Ok v.
Proof.
  unfold Sym._hot_get.
  destruct (Lru.find k (hot s)) as [v|]; [split_and!; [done|done|by left|by exists v]|].
  rewrite warm_get_spec. split_and!; [done|done|by right|by eexists].
Qed.

(** A lookup that finds nothing has tried the extractor on every candidate
    in turn, and has written nothing. *)
Lemma loop_trace_none name kind cands : forall s,
  let x := lookup_loop name kind cands s in
  result x = Ok None ->
  db (state_of x) = db s /\
  filter is_write (trace x) = [] /\
  filter is_extract (trace x) = map (fun c => EvExtract c.1 c.2) cands.
Proof.
  induction cands as [|[f h] rest IH]; intros s; simpl; [done|].
  destruct (blob_sha_effect f s) as (Hdb1 & _ & Ht1).
  destruct (Sym._blob_sha git self f s) as [[[sha|] s1] t1] eqn:E1;
    [|by rewrite (bind_Raise _ _ _ _ _ E1)].
  rewrite (bind_Ok _ _ _ _ _ _ E1).
  destruct (hot_get_effect (repo self, sha, kind, name) s1) as (Hdb2 & _ & Ht2 & _).
  destruct (Sym._hot_get self (repo self, sha, kind, name) s1)
    as [[[cached|] s2] t2] eqn:E2; [|by rewrite (bind_Raise _ _ _ _ _ E2)].
  rewrite (bind_Ok _ _ _ _ _ _ E2).
  destruct cached as [row|]; [done|].
  pose proof (git_show_spec sha s2) as Eshow.
  destruct (cat_file git (repo self) sha) as [src|];
    [|by rewrite (bind_Raise _ _ _ _ _ Eshow)].
  rewrite (bind_Ok _ _ _ _ _ _ Eshow).
  pose proof (extract_spec src f name kind h s2) as Eex.
  destruct (extract_pure src f name kind h) as [[r|]|];
    [by rewrite (bind_Ok _ _ _ _ _ _ Eex)| |by rewrite (bind_Raise _ _ _ _ _ Eex)].
  rewrite (bind_Ok _ _ _ _ _ _ Eex). triple.
  intros Hnone. destruct (IH s2 Hnone) as (Hdb & Hw & He).
  cbv [state_of trace result fst snd] in Hdb1, Hdb2, Ht1, Ht2.
  split_and!.
  - by rewrite Hdb, Hdb2, Hdb1.
  - rewrite !filter_app, Hw. by destruct Ht1 as [-> | ->], Ht2 as [-> | ->].
  - rewrite !filter_app, He. by destruct Ht1 as [-> | ->], Ht2 as [-> | ->].
Qed.

Lemma lookup_trace_none name kind s :
  let x := _lookup name kind s in
  result x = Ok None ->
  db (state_of x) = db s /\ filter is_write (trace x) = [].
Proof.
  unfold Sym._lookup. destruct (negb (in_KINDS kind)); [done|].
  destruct (grep_candidates_spec name kind s) as (t & E & Ht).
  rewrite (bind_Ok _ _ _ _ _ _ E). triple. intros Hnone.
  destruct (loop_trace_none _ _ _ _ Hnone) as (Hdb & Hw & _).
  split; [done|]. rewrite filter_app, Hw. by destruct Ht as [-> | ->].
Qed.

(** *** The claims on the candidate loop *)



(** C8.  A kind outside the six recognised ones is answered with [None] at
    once: no event happens (no search, no hash resolution, no read, no
    extraction, no access to the store) and the state is untouched. *)
Theorem C8_unsupported_kind name kind s :
  in_KINDS kind = false ->
  _lookup name kind s = (Ok None, s, []).
Proof. intros Hk. unfold Sym._lookup. by rewrite Hk. Qed.

Lemma loop_pure_passes name kind d pre rest :
  Forall (Ref.passes C_PARSER CPP_PARSER path_join git self name kind d) pre ->
  loop_pure name kind d (pre ++ rest) = loop_pure name kind d rest.
Proof.
  induction 1 as [|[f h] pre (sha & src & Hb & Hd & Hc & He) _ IH]; [done|].
  simpl in *. rewrite Hb. unfold warm. by rewrite Hd, Hc, He.
Qed.


Lemma verified_step name kind d :
  Ref.verified C_PARSER CPP_PARSER path_join self d ->
  Ref.verified C_PARSER CPP_PARSER path_join self (lookup_pure name kind d).2.
Proof.
  intros Hver.
  destruct (lookup_pure_store name kind d)
    as [->|(sha & r' & _ & -> & src & f & h & Hex)]; [done|].
  intros sha0 kind0 name0 row.
  destruct (decide (key_of sha kind name = key_of sha0 kind0 name0)) as [Heq|Hne].
  - rewrite Heq, lookup_insert_eq. intros [= <-].
    injection Heq as _ <- <-. exists src, f, h. by rewrite rec_of_row_of_rec.
  - rewrite lookup_insert_ne by done. apply Hver.
Qed.

(** C9.  Negative outcomes are not persisted.  Every row of the warm store
    stays a record the extractor returned.  A lookup that returns [None]
    leaves the warm store as it was and neither writes a row nor clears the
    hot tier; asked again, it searches again, runs the extractor on every
    candidate again and returns [None] again. *)
Theorem C9_negative_not_persisted name kind s :
  coherent s ->
  let x := _lookup name kind s in
  (Ref.verified C_PARSER CPP_PARSER path_join self (db s) ->
   Ref.verified C_PARSER CPP_PARSER path_join self (db (state_of x))) /\
  (result x = Ok None ->
   db (state_of x) = db s /\
   filter is_write (trace x) = [] /\
   let y := _lookup name kind (state_of x) in
   result y = Ok None /\
   (in_KINDS kind = true ->
    head (trace y) = Some (EvGrepP (_grep_pattern kind name)) /\
    filter is_extract (trace y)
    = map (fun c => EvExtract c.1 c.2) (Ref.candidates git self name kind))).
Proof.
  intros Hco x.
  destruct (lookup_spec name kind s Hco) as (Hres & Hdb & Hco').
  split.
  { intros Hver. fold x in Hdb. rewrite Hdb. by apply verified_step. }
  intros Hnone.
  destruct (lookup_trace_none name kind s Hnone) as (Hsame & Hw).
  fold x in Hsame, Hw, Hres, Hco'. split_and!; [done|done|].
  assert (Hy : result (_lookup name kind (state_of x)) = Ok None).
  { destruct (lookup_spec name kind _ Hco') as (-> & _).
    rewrite Hsame. by rewrite <- Hres. }
  split; [exact Hy|]. intros Hk. revert Hy.
  unfold Sym._lookup. rewrite Hk. simpl.
  destruct (grep_candidates_spec name kind (state_of x)) as (t & E & Ht).
  rewrite (bind_Ok _ _ _ _ _ _ E). triple. intros Hy.
  destruct (loop_trace_none _ _ _ _ Hy) as (_ & _ & He).
  split; [by destruct Ht as [-> | ->]|].
  rewrite filter_app, He. by destruct Ht as [-> | ->].
Qed.

(** The first candidate resolves to a hash for which the store has a row:
    the row is returned, and nothing is fetched, extracted or written. *)
Lemma first_candidate_hit name kind s f h rest sha row :
  coherent s ->
  in_KINDS kind = true ->
  Ref.candidates git self name kind = (f, h) :: rest ->
  blob f = Ok sha ->
  db s !! key_of sha kind name = Some row ->
  let x := _lookup name kind s in
  result x = Ok (Some (rec_of_row row)) /\
  db (state_of x) = db s /\
  filter is_extract (trace x) = [] /\
  filter is_fetch (trace x) = [] /\
  filter is_write (trace x) = [].
Proof.
  intros [Hhot Hmemo] Hk Hcands Hb Hrow. unfold Sym._lookup. rewrite Hk. simpl.
  destruct (grep_candidates_spec name kind s) as (t & E & Ht).
  rewrite (bind_Ok _ _ _ _ _ _ E), Hcands. simpl.
  destruct (blob_sha_spec f s Hmemo) as (s1 & t1 & E1 & Hdb1 & Hhot1 & Hmemo1 & Ht1).
  rewrite Hb in E1. rewrite (bind_Ok _ _ _ _ _ _ E1).
  assert (Hhot1' : hot_ok s1) by (unfold Ref.hot_ok; by rewrite Hdb1, Hhot1).
  destruct (hot_get_spec (repo self, sha, kind, name) s1 Hhot1')
    as (s2 & t2 & E2 & Hdb2 & _ & _ & Ht2).
  rewrite (bind_Ok _ _ _ _ _ _ E2). rewrite Hdb1. unfold warm.
  unfold Ref.key_of in Hrow. rewrite Hrow. simpl. unfold ret. triple.
  split_and!; [done|by rewrite Hdb2|..];
    rewrite !filter_app;
    by destruct Ht as [-> | ->], Ht1 as [-> | ->], Ht2 as [-> | ->].
Qed.

(** The first candidate resolves to a hash for which the store has no row,
    and the extractor finds the symbol in it: the record is returned after
    one extraction and stored under that hash. *)
Lemma first_candidate_cold name kind s f h rest sha src r :
  coherent s ->
  in_KINDS kind = true ->
  Ref.candidates git self name kind = (f, h) :: rest ->
  blob f = Ok sha ->
  db s !! key_of sha kind name = None ->
  cat_file git (repo self) sha = Some src ->
  extract_pure src f name kind h = Ok (Some r) ->
  let x := _lookup name kind s in
  result x = Ok (Some r) /\
  db (state_of x) = <[key_of sha kind name := row_of_rec r]> (db s) /\
  filter is_extract (trace x) = [EvExtract f h].
Proof.
  intros [Hhot Hmemo] Hk Hcands Hb Hrow Hcat Hex. unfold Sym._lookup. rewrite Hk. simpl.
  destruct (grep_candidates_spec name kind s) as (t & E & Ht).
  rewrite (bind_Ok _ _ _ _ _ _ E), Hcands. simpl.
  destruct (blob_sha_spec f s Hmemo) as (s1 & t1 & E1 & Hdb1 & Hhot1 & Hmemo1 & Ht1).
  rewrite Hb in E1. rewrite (bind_Ok _ _ _ _ _ _ E1).
  assert (Hhot1' : hot_ok s1) by (unfold Ref.hot_ok; by rewrite Hdb1, Hhot1).
  destruct (hot_get_spec (repo self, sha, kind, name) s1 Hhot1')
    as (s2 & t2 & E2 & Hdb2 & _ & _ & Ht2).
  rewrite (bind_Ok _ _ _ _ _ _ E2). rewrite Hdb1. unfold warm.
  unfold Ref.key_of in Hrow |- *. rewrite Hrow. simpl.
  pose proof (git_show_spec sha s2) as Eshow. rewrite Hcat in Eshow.
  rewrite (bind_Ok _ _ _ _ _ _ Eshow).
  pose proof (extract_spec src f name kind h s2) as Eex. rewrite Hex in Eex.
  rewrite (bind_Ok _ _ _ _ _ _ Eex).
  unfold bind, Sym._warm_put, Sym.hot_cache_clear, ret. triple. simpl.
  split_and!; [done|by rewrite Hdb2, Hdb1|].
  rewrite !filter_app.
  by destruct Ht as [-> | ->], Ht1 as [-> | ->], Ht2 as [-> | ->].
Qed.

Lemma extract_file src path name kind hint r :
  extract_pure src path name kind hint = Ok (Some r) ->
  file r = path_join (repo self) path.
Proof.
  unfold Ref.extract_pure, _extract_symbol.
  destruct (String.eqb kind "macro").
  { destruct (Re.search _ _); by intros [= <-]. }
  destruct (String.eqb kind "global").
  { destruct (first_named _ _ _); by intros [= <-]. }
  destruct (finder_of kind) as [finder|]; [|done].
  destruct (finder _ _ _); by intros [= <-].
Qed.

(** *** Candidates that are passed over, and the one that answers *)







End Facts.
End SymFacts.

(** ** Two backends on one warm store *)

Section Shared.
Import PyStr Backend Ref.

Variable C_PARSER CPP_PARSER : string -> Node.
Variable path_join : string -> string -> string.
Variable git : Git.
Variable b1 b2 : SymbolBackend.

Local Abbreviation lookup1 := (Sym._lookup C_PARSER CPP_PARSER path_join git b1).
Local Abbreviation lookup2 := (Sym._lookup C_PARSER CPP_PARSER path_join git b2).

(** A cold lookup through [b1] whose first candidate holds the symbol, then
    a lookup through [b2], on the store the first one left, whose first
    candidate has the same content hash. *)
Lemma cold_then_hit name kind s1 s2 f1 h1 rest1 f2 h2 rest2 sha src r :
  repo b1 = repo b2 ->
  in_KINDS kind = true ->
  coherent git b1 s1 ->
  candidates git b1 name kind = (f1, h1) :: rest1 ->
  blob git b1 f1 = Ok sha ->
  db s1 !! key_of b1 sha kind name = None ->
  cat_file git (repo b1) sha = Some src ->
  extract_pure C_PARSER CPP_PARSER path_join b1 src f1 name kind h1 = Ok (Some r) ->
  coherent git b2 s2 ->
  db s2 = db (state_of (lookup1 name kind s1)) ->
  candidates git b2 name kind = (f2, h2) :: rest2 ->
  blob git b2 f2 = Ok sha ->
  let x1 := lookup1 name kind s1 in
  let x2 := lookup2 name kind s2 in
  result x1 = Ok (Some r) /\
  result x2 = Ok (Some r) /\
  filter is_extract (trace x1) = [EvExtract f1 h1] /\
  filter is_extract (trace x2) = [] /\
  filter is_fetch (trace x2) = [] /\
  filter is_write (trace x2) = [] /\
  db (state_of x2) = db s2.
Proof.
  intros Hrepo Hk Hco1 Hc1 Hb1 Hd1 Hcat Hex Hco2 Hdb Hc2 Hb2 x1 x2.
  destruct (SymFacts.first_candidate_cold C_PARSER CPP_PARSER path_join git b1
              name kind s1 f1 h1 rest1 sha src r Hco1 Hk Hc1 Hb1 Hd1 Hcat Hex)
    as (Hr1 & Hdb1 & He1).
  fold x1 in Hr1, Hdb1, He1.
  assert (Hrow : db s2 !! key_of b2 sha kind name = Some (row_of_rec r)).
  { rewrite Hdb. fold x1. rewrite Hdb1. unfold key_of. rewrite Hrepo.
    apply lookup_insert_eq. }
  destruct (SymFacts.first_candidate_hit C_PARSER CPP_PARSER path_join git b2
              name kind s2 f2 h2 rest2 sha _ Hco2 Hk Hc2 Hb2 Hrow)
    as (Hr2 & Hdb2 & He2 & Hf2 & Hw2).
  fold x2 in Hr2, Hdb2, He2, Hf2, Hw2.
  rewrite SymFacts.rec_of_row_of_rec in Hr2. by split_and!.
Qed.


(** C10.  The cache key has no path: when the first candidate of the
    second lookup is another path with the same content hash, the record
    it returns is the one stored by the first lookup, and its [file] is the
    path of the first lookup's candidate, not the path of its own. *)
Theorem C10_cached_path name kind s1 s2 f1 h1 rest1 f2 h2 rest2 sha src r :
  repo b1 = repo b2 ->
  in_KINDS kind = true ->
  coherent git b1 s1 ->
  candidates git b1 name kind = (f1, h1) :: rest1 ->
  blob git b1 f1 = Ok sha ->
  db s1 !! key_of b1 sha kind name = None ->
  cat_file git (repo b1) sha = Some src ->
  extract_pure C_PARSER CPP_PARSER path_join b1 src f1 name kind h1 = Ok (Some r) ->
  coherent git b2 s2 ->
  db s2 = db (state_of (lookup1 name kind s1)) ->
  candidates git b2 name kind = (f2, h2) :: rest2 ->
  blob git b2 f2 = Ok sha ->
  path_join (repo b2) f2 <> path_join (repo b1) f1 ->
  exists r2,
    result (lookup2 name kind s2) = Ok (Some r2) /\
    file r2 = path_join (repo b1) f1 /\
    file r2 <> path_join (repo b2) f2.
Proof.
  intros Hrepo Hk Hco1 Hc1 Hb1 Hd1 Hcat Hex Hco2 Hdb Hc2 Hb2 Hpath.
  destruct (cold_then_hit name kind s1 s2 f1 h1 rest1 f2 h2 rest2 sha src r)
    as (_ & Hr2 & _); try done.
  exists r. split; [exact Hr2|].
  rewrite (SymFacts.extract_file _ _ _ _ _ _ _ _ _ _ Hex). by split.
Qed.

End Shared.

(** ** The claims on the demo repository *)

Module DemoFacts.
Import PyStr Backend Ref Demo.

Lemma fresh_coherent commit : coherent git (backend commit) fresh.
Proof. split; constructor. Defined.

Lemma attach_coherent commit s : coherent git (backend commit) (attach s).
Proof. split; constructor. Defined.





Lemma C8_witness : lookup "c1" "add" "class" fresh = (Ok None, fresh, []).
Proof.
  apply (SymFacts.C8_unsupported_kind parse parse path_join git (backend "c1")
           "add" "class" fresh).
  reflexivity.
Defined.

Lemma C9_witness :
  let x := lookup "c1" "mul" "function" fresh in
  result x = Ok None /\
  db (state_of x) = db fresh /\
  filter is_write (trace x) = [] /\
  result (lookup "c1" "mul" "function" (state_of x)) = Ok None /\
  filter is_extract (trace (lookup "c1" "mul" "function" (state_of x)))
  = [EvExtract "wide.c" 0].
Proof.
  intros x.
  assert (Hnone : result x = Ok None) by reflexivity.
  destruct (SymFacts.C9_negative_not_persisted parse parse path_join git (backend "c1")
              "mul" "function" fresh (fresh_coherent "c1")) as [_ H].
  destruct (H Hnone) as (Hdb & Hw & Hy & Hrun).
  destruct (Hrun eq_refl) as [_ He].
  split_and!; [exact Hnone|exact Hdb|exact Hw|exact Hy|exact He].
Defined.



Lemma C10_witness :
  exists r2,
    result (lookup "c4" "add" "function"
              (attach (state_of (lookup "c1" "add" "function" fresh)))) = Ok (Some r2) /\
    file r2 = "/srv/repo/util.c" /\
    file r2 <> "/srv/repo/copy/util.c".
Proof.
  apply (C10_cached_path parse parse path_join git (backend "c1") (backend "c4")
           "add" "function" fresh (attach (state_of (lookup "c1" "add" "function" fresh)))
           "util.c" 1%Z [] "copy/util.c" 1%Z [("util.c", 1%Z)] "b10b" src_util rec_add).
  - reflexivity.
  - reflexivity.
  - apply fresh_coherent.
  - reflexivity.
  - reflexivity.
  - reflexivity.
  - reflexivity.
  - reflexivity.
  - apply attach_coherent.
  - reflexivity.
  - reflexivity.
  - reflexivity.
  - discriminate.
Defined.

End DemoFacts.

(** ** The node finders *)

Module TreeFacts.
Import PyStr Backend.
Local Open Scope list_scope.

Lemma pop_Some {A : Type} (queue : list A) x q :
  pop queue = Some (x, q) -> queue = q ++ [x].
Proof.
  unfold pop. destruct (rev queue) as [|y r] eqn:E; [discriminate|].
  intros [= <- <-]. rewrite <- (rev_involutive queue), E. reflexivity.
Qed.

Lemma pop_None {A : Type} (queue : list A) : pop queue = None -> queue = [].
Proof.
  unfold pop. destruct (rev queue) as [|y r] eqn:E; [|discriminate].
  intros _. rewrite <- (rev_involutive queue), E. reflexivity.
Qed.

Lemma nsize_children n :
  nsize n = S (list_sum (map nsize (children n))).
Proof. by destruct n. Qed.

Lemma list_sum_filter_le {A : Type} (f : A -> nat) (P : A -> Prop)
    `{!forall x, Decision (P x)} (l : list A) :
  list_sum (map f (filter P l)) <= list_sum (map f l).
Proof.
  induction l as [|x l IH]; simpl; [done|].
  rewrite filter_cons. destruct (decide (P x)); simpl; lia.
Qed.

Lemma kids_size l :
  list_sum (map (fun c => nsize (here c)) (kids l))
  = list_sum (map nsize (children (here l))).
Proof.
  unfold kids. rewrite map_map. reflexivity.
Qed.

(** [_node_at_line] terminates: once the fuel exceeds the nodes still
    reachable from the queue, more fuel does not change the answer.  The
    fuel [_node_at_line] starts with is of that kind. *)
Lemma node_at_line_loop_fuel ln : forall fuel queue fuel',
  list_sum (map (fun l => nsize (here l)) queue) < fuel ->
  fuel <= fuel' ->
  node_at_line_loop fuel' queue ln = node_at_line_loop fuel queue ln.
Proof.
  induction fuel as [|fuel IH]; intros queue fuel' Hsz Hle; [lia|].
  destruct fuel' as [|fuel']; [lia|]. simpl.
  destruct (pop queue) as [[n q]|] eqn:Hpop; [|done].
  destruct (start_line (here n) =? ln)%Z; [done|].
  apply IH; [|lia].
  apply pop_Some in Hpop. subst queue.
  rewrite !map_app, !list_sum_app in *. simpl in Hsz.
  pose proof (list_sum_filter_le (fun c => nsize (here c))
                (fun c => (start_line (here c) <=? ln)%Z) (kids n)) as Hf.
  rewrite kids_size in Hf. rewrite (nsize_children (here n)) in Hsz. lia.
Qed.

Lemma node_at_line_total root ln fuel :
  S (nsize root) <= fuel ->
  node_at_line_loop fuel [at_root root] ln = _node_at_line root ln.
Proof.
  intros Hle. unfold _node_at_line. apply node_at_line_loop_fuel; [simpl; lia|done].
Qed.

(** The seed starts on the hinted line and none of its ancestors does: it
    is the outermost node of its branch on that line. *)
Lemma node_at_line_loop_outermost ln : forall fuel queue l,
  Forall (fun q => Forall (fun a => start_line a <> ln) (ups q)) queue ->
  node_at_line_loop fuel queue ln = Some l ->
  start_line (here l) = ln /\ Forall (fun a => start_line a <> ln) (ups l).
Proof.
  induction fuel as [|fuel IH]; intros queue l Hq; simpl; [discriminate|].
  destruct (pop queue) as [[n q]|] eqn:Hpop; [|discriminate].
  apply pop_Some in Hpop. subst queue.
  apply Forall_app in Hq as [Hq Hn]. apply Forall_inv in Hn.
  destruct (Z.eqb_spec (start_line (here n)) ln) as [Heq|Hne].
  { intros [= <-]. split; [exact Heq|exact Hn]. }
  apply IH. apply Forall_app. split; [exact Hq|].
  apply Forall_forall. intros c Hc.
  apply list_elem_of_filter in Hc as [_ Hc].
  unfold kids in Hc. apply list_elem_of_fmap in Hc as (c' & -> & _).
  simpl. by constructor.
Qed.

Lemma node_at_line_outermost root ln l :
  _node_at_line root ln = Some l ->
  start_line (here l) = ln /\ Forall (fun a => start_line a <> ln) (ups l).
Proof.
  apply node_at_line_loop_outermost. by repeat constructor.
Qed.

(** When the root starts on the hinted line the seed is the root, and the
    climb from it tests the root alone. *)
Lemma node_at_line_root root ln :
  start_line root = ln -> _node_at_line root ln = Some (at_root root).
Proof.
  intros Hln. unfold _node_at_line. simpl.
  by rewrite (proj2 (Z.eqb_eq _ _) Hln).
Qed.

Lemma climb_root test root ln :
  start_line root = ln ->
  climb test (_node_at_line root ln) = if test root then Some root else None.
Proof. intros Hln. by rewrite (node_at_line_root _ _ Hln). Qed.

(** For a file that starts on line 0, each of the four finders, given the
    hint 0, looks at the translation unit and at nothing else: it finds
    nothing, whatever the file defines. *)
Lemma finder_hint0_none kind finder root ident :
  finder_of kind = Some finder ->
  start_line root = 0%Z ->
  ntype root = "translation_unit" ->
  finder root ident 0%Z = None.
Proof.
  unfold finder_of. intros Hf Hln Hty.
  repeat match type of Hf with
         | (if ?b then _ else _) = _ => destruct b
         end;
    try discriminate; injection Hf as <-;
    unfold _find_function, _find_typedef, _find_struct, _find_enum;
    rewrite (climb_root _ _ _ Hln);
    unfold is_function, is_typedef, is_specifier; by rewrite Hty.
Qed.

(** C3 (the code departs from the claim).  On the tree of [util.c], whose
    function [add] is on line 1: for the hint 1 the seed is the whole
    function definition although smaller nodes start on line 1; for the
    hint 0 the seed is the root and the climb from it sees no other node,
    so the function is not found, while the hint 1 finds it. *)
Theorem C3_seed_at_failing_input :
  _node_at_line Demo.tree_util 1 = Some (mkLoc Demo.fn_add [Demo.tree_util]) /\
  Exists (fun n => start_line n = 1%Z /\ nsize n < nsize Demo.fn_add)
    (walk Demo.tree_util) /\
  _node_at_line Demo.tree_util 0 = Some (at_root Demo.tree_util) /\
  _find_function Demo.tree_util "add" 0 = None /\
  _find_function Demo.tree_util "add" 1 = Some Demo.fn_add.
Proof.
  split_and!; try reflexivity.
  apply Exists_cons_tl, Exists_cons_tl, Exists_cons_tl, Exists_cons_hd.
  split; [reflexivity|]. vm_compute. lia.
Qed.

(** When the strict search has no hit, every candidate carries the
    hint 0. *)
Lemma fallback_hints git self name kind :
  grep_nP git (repo self) (_grep_pattern kind name) (commit self) = [] ->
  Forall (fun c => c.2 = 0%Z) (Ref.candidates git self name kind).
Proof.
  intros Hnone. unfold Ref.candidates. rewrite Hnone.
  apply Forall_forall. intros c Hc.
  apply list_elem_of_fmap in Hc as (f & -> & _). reflexivity.
Qed.

(** The pattern extractor does not read the hint: for macros and globals
    the fallback candidates are searched like any other. *)
Lemma pattern_kinds_ignore_hint C_PARSER CPP_PARSER path_join repo_ src path name h1 h2 :
  _extract_symbol C_PARSER CPP_PARSER path_join repo_ src path name "macro" h1
  = _extract_symbol C_PARSER CPP_PARSER path_join repo_ src path name "macro" h2 /\
  _extract_symbol C_PARSER CPP_PARSER path_join repo_ src path name "global" h1
  = _extract_symbol C_PARSER CPP_PARSER path_join repo_ src path name "global" h2.
Proof. split; reflexivity. Qed.

Lemma finder_of_structural kind finder :
  finder_of kind = Some finder ->
  String.eqb kind "macro" = false /\ String.eqb kind "global" = false.
Proof.
  unfold finder_of. intros Hf.
  repeat match type of Hf with
         | (if String.eqb kind ?k then _ else _) = _ =>
             destruct (String.eqb_spec kind k) as [->|_]; [by split|]
         end.
  discriminate.
Qed.

(** C2 (the code departs from the claim).  The single-line pattern does
    not match the definition of [mul] in [wide.c], so the fallback search
    supplies [wide.c] with the hint 0; the tree of the file holds the
    definition of [mul], and the lookup returns [None]. *)
Theorem C2_fallback_at_failing_input :
  grep_nP Demo.git "/srv/repo" (_grep_pattern "function" "mul") "c1" = [] /\
  Ref.candidates Demo.git (Demo.backend "c1") "mul" "function" = [("wide.c", 0%Z)] /\
  Demo.parse Demo.src_wide = Demo.tree_wide /\
  In Demo.fn_mul (walk Demo.tree_wide) /\
  is_function "mul" Demo.fn_mul = true /\
  result (Demo.lookup "c1" "mul" "function" Demo.fresh) = Ok None.
Proof.
  split_and!; try reflexivity. simpl. tauto.
Qed.

End TreeFacts.

(** ** The pattern extractor *)

Module ReFacts.
Import PyStr Re Backend.

Lemma append_nil (v : string) : EmptyString ++ v = v.
Proof. reflexivity. Qed.

Lemma append_cons c (u v : string) : String c u ++ v = String c (u ++ v).
Proof. reflexivity. Qed.

Lemma append_assoc (u v w : string) : (u ++ v) ++ w = u ++ (v ++ w).
Proof.
  induction u as [|c u IH]; [done|]. by rewrite !append_cons, IH.
Qed.

Lemma length_append (u v : string) :
  String.length (u ++ v) = String.length u + String.length v.
Proof.
  induction u as [|c u IH]; [done|]. rewrite append_cons. simpl. by rewrite IH.
Qed.

Lemma all_chars_append cls (u v : string) :
  all_chars cls (u ++ v) = all_chars cls u && all_chars cls v.
Proof.
  induction u as [|c u IH]; [done|]. rewrite append_cons. simpl.
  rewrite IH. by destruct (cls c).
Qed.

Lemma all_chars_weaken (c cls : ascii -> bool) (w : string) :
  (forall ch, c ch = true -> cls ch = true) ->
  all_chars c w = true -> all_chars cls w = true.
Proof.
  intros Hsub. induction w as [|ch w IH]; simpl; [done|].
  intros [Hc Hw]%andb_true_iff. by rewrite (Hsub _ Hc), IH.
Qed.

Lemma take_append_more (u v : string) n :
  take (String.length u + n) (u ++ v) = u ++ take n v.
Proof.
  induction u as [|c u IH]; [done|]. rewrite !append_cons. simpl. by rewrite IH.
Qed.

(** *** What a successful match has consumed *)

Lemma lit_within cls s : forall k prev rest pos cap res,
  all_chars cls s = true ->
  lit s k prev rest pos cap = Some res ->
  exists rest' prev',
    rest = s ++ rest' /\ k prev' rest' (pos + String.length s) cap = Some res.
Proof.
  induction s as [|c s IH]; intros k prev rest pos cap res Hall; simpl.
  { intros Hk. exists rest, prev. by rewrite Nat.add_0_r. }
  apply andb_true_iff in Hall as [_ Hall].
  destruct rest as [|d rest]; [discriminate|].
  destruct (Ascii.eqb_spec c d) as [<-|]; [|discriminate].
  intros Hk. destruct (IH _ _ _ _ _ _ Hall Hk) as (rest' & prev' & -> & Hk').
  exists rest', prev'. split; [done|].
  by replace (pos + S (String.length s)) with (S pos + String.length s) by lia.
Qed.

Lemma star_within c k : forall rest prev pos cap res,
  star c k prev rest pos cap = Some res ->
  exists w rest' prev',
    rest = w ++ rest' /\ all_chars c w = true /\
    k prev' rest' (pos + String.length w) cap = Some res.
Proof.
  assert (Hstop : forall rest prev pos cap res,
             k prev rest pos cap = Some res ->
             exists w rest' prev',
               rest = w ++ rest' /\ all_chars c w = true /\
               k prev' rest' (pos + String.length w) cap = Some res).
  { intros rest prev pos cap res Hk. exists EmptyString, rest, prev.
    by rewrite Nat.add_0_r. }
  induction rest as [|ch rest IH]; intros prev pos cap res; simpl; [apply Hstop|].
  destruct (c ch) eqn:Hc; [|apply Hstop].
  destruct (star c k (Some ch) rest (S pos) cap) as [res'|] eqn:Hs; [|apply Hstop].
  intros [= <-]. destruct (IH _ _ _ _ Hs) as (w & rest' & prev' & -> & Hw & Hk).
  exists (String ch w), rest', prev'. simpl. rewrite Hc, Hw.
  split_and!; [done|done|].
  by replace (pos + S (String.length w)) with (S pos + String.length w) by lia.
Qed.

Lemma mtch_within cls r : forall k prev rest pos cap res,
  within cls r ->
  mtch r k prev rest pos cap = Some res ->
  exists w rest' prev' cap',
    rest = w ++ rest' /\ all_chars cls w = true /\
    k prev' rest' (pos + String.length w) cap' = Some res.
Proof.
  assert (Hnone : forall (k : cont) prev rest pos cap res,
             k prev rest pos cap = Some res ->
             exists w rest' prev' cap',
               rest = w ++ rest' /\ all_chars cls w = true /\
               k prev' rest' (pos + String.length w) cap' = Some res).
  { intros k prev rest pos cap res Hk. exists EmptyString, rest, prev, cap.
    by rewrite Nat.add_0_r. }
  assert (Hone : forall c (k : cont) ch rest pos cap res,
             (forall ch, c ch = true -> cls ch = true) ->
             c ch = true ->
             star c k (Some ch) rest (S pos) cap = Some res ->
             exists w rest' prev' cap',
               String ch rest = w ++ rest' /\ all_chars cls w = true /\
               k prev' rest' (pos + String.length w) cap' = Some res).
  { intros c k ch rest pos cap res Hsub Hc Hs.
    destruct (star_within _ _ _ _ _ _ _ Hs) as (w & rest' & prev' & -> & Hw & Hk).
    exists (String ch w), rest', prev', cap. simpl.
    rewrite (Hsub _ Hc), (all_chars_weaken _ _ _ Hsub Hw).
    split_and!; [done|done|].
    by replace (pos + S (String.length w)) with (S pos + String.length w) by lia. }
  induction r as [| |s|c|c|c|r IH|r IH|r1 IH1 r2 IH2];
    intros k prev rest pos cap res Hin; simpl.
  - destruct (at_bol prev); [apply Hnone|discriminate].
  - destruct (at_wordb prev rest); [apply Hnone|discriminate].
  - intros Hl. destruct (lit_within _ _ _ _ _ _ _ _ Hin Hl) as (rest' & prev' & -> & Hk).
    by exists s, rest', prev', cap.
  - destruct rest as [|ch rest]; [discriminate|].
    destruct (c ch) eqn:Hc; [|discriminate]. intros Hk.
    exists (String ch EmptyString), rest, (Some ch), cap. simpl.
    rewrite (Hin _ Hc). split_and!; [done|done|].
    by replace (pos + 1) with (S pos) by lia.
  - intros Hs. destruct (star_within _ _ _ _ _ _ _ Hs) as (w & rest' & prev' & -> & Hw & Hk).
    exists w, rest', prev', cap. by rewrite (all_chars_weaken _ _ _ Hin Hw).
  - destruct rest as [|ch rest]; [discriminate|].
    destruct (c ch) eqn:Hc; [|discriminate]. by apply Hone.
  - destruct (mtch r k prev rest pos cap) as [res'|] eqn:Hr; [|apply Hnone].
    intros [= <-]. by apply (IH _ _ _ _ _ _ Hin Hr).
  - intros Hr. destruct (IH _ _ _ _ _ _ Hin Hr) as (w & rest' & prev' & cap' & -> & Hw & Hk).
    by exists w, rest', prev', (Some (pos, pos + String.length w)).
  - destruct Hin as [Hin1 Hin2]. intros Hr.
    destruct (IH1 _ _ _ _ _ _ Hin1 Hr) as (w1 & rest1 & prev1 & cap1 & -> & Hw1 & Hk1).
    destruct (IH2 _ _ _ _ _ _ Hin2 Hk1) as (w2 & rest2 & prev2 & cap2 & -> & Hw2 & Hk2).
    exists (w1 ++ w2), rest2, prev2, cap2.
    rewrite append_assoc, all_chars_append, Hw1, Hw2, length_append.
    split_and!; [done|done|]. by rewrite Nat.add_assoc.
Qed.

Lemma mtch_bol r k prev rest pos cap res :
  mtch (Bol ⊳ r) k prev rest pos cap = Some res -> at_bol prev = true.
Proof. simpl. by destruct (at_bol prev). Qed.

Lemma within_global_head : within cls_global_run RGX_GLOBAL_head.
Proof.
  unfold RGX_GLOBAL_head, cls_global_run. simpl.
  split_and!; try done; intros ch Hch; rewrite Hch; by destruct (is_word ch).
Qed.

(** A match of [RGX_GLOBAL] starts where a line starts and is a run of
    word characters, white space and stars closed by one of [= ; {]. *)
Lemma rgx_global_shape prev rest pos m :
  match_here RGX_GLOBAL prev rest pos = Some m ->
  m_start m = pos /\
  at_bol prev = true /\
  exists w t rest',
    rest = w ++ String t rest' /\
    all_chars cls_global_run w = true /\
    cls_global_end t = true /\
    m_end m = pos + String.length w + 1.
Proof.
  unfold match_here.
  destruct (mtch RGX_GLOBAL accept prev rest pos None) as [[e cap]|] eqn:Hm;
    [|discriminate].
  intros [= <-]. simpl. split; [done|].
  split; [exact (mtch_bol _ _ _ _ _ _ _ Hm)|].
  change (mtch RGX_GLOBAL accept) with
    (mtch RGX_GLOBAL_head (mtch (One cls_global_end) accept)) in Hm.
  destruct (mtch_within _ _ _ _ _ _ _ _ within_global_head Hm)
    as (w & rest' & prev' & cap' & -> & Hw & Hk).
  simpl in Hk. destruct rest' as [|t rest']; [discriminate|].
  destruct (cls_global_end t) eqn:Ht; [|discriminate].
  injection Hk as <- _. exists w, t, rest'. split_and!; [done|done|done|lia].
Qed.

(** A match of [RGX_GLOBAL] is never empty, so [finditer] never meets the
    rule of [re] for empty matches on it. *)
Lemma rgx_global_nonempty prev rest pos m :
  match_here RGX_GLOBAL prev rest pos = Some m -> m_start m < m_end m.
Proof.
  intros Hm.
  destruct (rgx_global_shape _ _ _ _ Hm) as (-> & _ & w & t & rest' & _ & _ & _ & ->).
  lia.
Qed.

(** *** The scans *)

Lemma cursor_prev_step prev c rest k :
  cursor_prev prev (String c rest) (S k) = cursor_prev (Some c) rest k.
Proof. reflexivity. Qed.

(** [re.search] reports the match at the leftmost position that has one. *)
Lemma search_from_leftmost r : forall rest prev pos m,
  search_from r prev rest pos = Some m ->
  exists k,
    match_here r (cursor_prev prev rest k) (drop k rest) (pos + k) = Some m /\
    forall j, j < k ->
      match_here r (cursor_prev prev rest j) (drop j rest) (pos + j) = None.
Proof.
  induction rest as [|c rest IH]; intros prev pos m; simpl.
  - destruct (match_here r prev EmptyString pos) as [m0|] eqn:Hm; [|discriminate].
    intros [= <-]. exists 0. rewrite Nat.add_0_r. split; [done|lia].
  - destruct (match_here r prev (String c rest) pos) as [m0|] eqn:Hm.
    + intros [= <-]. exists 0. rewrite Nat.add_0_r. split; [done|lia].
    + intros Hs. destruct (IH _ _ _ Hs) as (k & Hk & Hleft).
      exists (S k). simpl. replace (pos + S k) with (S pos + k) by lia.
      split; [done|]. intros [|j] Hj; simpl.
      * by rewrite Nat.add_0_r.
      * replace (pos + S j) with (S pos + j) by lia. apply Hleft. lia.
Qed.

(** Every match of [re.finditer] is the match that starts at its
    position. *)
Lemma finditer_from_In r : forall rest prev pos skip m,
  In m (finditer_from r prev rest pos skip) ->
  exists k,
    match_here r (cursor_prev prev rest k) (drop k rest) (pos + k) = Some m.
Proof.
  induction rest as [|c rest IH]; intros prev pos skip m.
  - destruct skip as [|skip]; simpl; [|done].
    destruct (match_here r prev EmptyString pos) as [m0|] eqn:Hm; simpl; [|done].
    intros [<-|[]]. exists 0. by rewrite Nat.add_0_r.
  - assert (Hnext : forall skip',
               In m (finditer_from r (Some c) rest (S pos) skip') ->
               exists k,
                 match_here r (cursor_prev prev (String c rest) k)
                   (drop k (String c rest)) (pos + k) = Some m).
    { intros skip' Hin. destruct (IH _ _ _ _ Hin) as (k & Hk).
      exists (S k). simpl. by replace (pos + S k) with (S pos + k) by lia. }
    destruct skip as [|skip]; simpl; [|apply Hnext].
    destruct (match_here r prev (String c rest) pos) as [m0|] eqn:Hm; simpl;
      [|apply Hnext].
    intros [<-|Hin]; [|by apply (Hnext _ Hin)].
    exists 0. by rewrite Nat.add_0_r.
Qed.

Lemma first_named_spec src name ms : forall m,
  first_named src name ms = Some m ->
  exists before rest,
    ms = (before ++ m :: rest)%list /\
    Forall (fun m' => group_name src m' <> Some name) before /\
    group_name src m = Some name.
Proof.
  induction ms as [|m0 ms IH]; intros m; simpl; [discriminate|].
  destruct (group_name src m0) as [g|] eqn:Hg.
  - destruct (String.eqb_spec g name) as [->|Hne].
    + intros [= <-]. by exists [], ms.
    + intros Hm. destruct (IH _ Hm) as (before & rest & -> & Hb & Hn).
      exists (m0 :: before), rest. split_and!; [done| |done].
      constructor; [|done]. rewrite Hg. by intros [= ->].
  - intros Hm. destruct (IH _ Hm) as (before & rest & -> & Hb & Hn).
    exists (m0 :: before), rest. split_and!; [done| |done].
    constructor; [|done]. by rewrite Hg.
Qed.

Lemma slice_of_drop src k (w : string) t rest' :
  drop k src = w ++ String t rest' ->
  slice src k (k + String.length w + 1) = w ++ String t EmptyString.
Proof.
  intros Hd. unfold slice.
  replace (k + String.length w + 1 - k) with (String.length w + 1) by lia.
  rewrite Hd, take_append_more. reflexivity.
Qed.

Section Extractor.

Variable C_PARSER CPP_PARSER : string -> Node.
Variable path_join : string -> string -> string.
Variable repo_ : string.

Local Abbreviation extract_symbol := (_extract_symbol C_PARSER CPP_PARSER path_join repo_).

(** Macro extraction is [re.search] followed by [_build_rec]: the match it
    reports is the one at the leftmost position where the pattern matches,
    the code is the matched text without trailing white space and the line
    is the number of newlines before the start of the match. *)
Lemma macro_extraction src path name hint r :
  extract_symbol src path name "macro" hint = Ok (Some r) ->
  exists m,
    match_here (RGX_MACRO name) (cursor_prev None src (m_start m))
      (drop (m_start m) src) (m_start m) = Some m /\
    (forall j, j < m_start m ->
       match_here (RGX_MACRO name) (cursor_prev None src j) (drop j src) j = None) /\
    code r = rstrip (slice src (m_start m) (m_end m)) /\
    file r = path_join repo_ path /\
    line r = Z.of_nat (count_nl (slice src 0 (m_start m))).
Proof.
  unfold _extract_symbol. simpl.
  destruct (search (RGX_MACRO name) src) as [m|] eqn:Hs; [|discriminate].
  intros [= <-]. exists m.
  destruct (search_from_leftmost _ _ _ _ _ Hs) as (k & Hk & Hleft).
  assert (Hstart : m_start m = k).
  { unfold match_here in Hk.
    destruct (mtch _ _ _ _ _ _) as [[e cap]|]; [|discriminate].
    by injection Hk as <-. }
  rewrite Hstart. by split_and!.
Qed.

(** C7, as amended.  Global-variable extraction returns the first match
    of [RGX_GLOBAL], in the order of [finditer], whose captured identifier
    is the requested name.  The match starts where a line starts and is a
    run of word characters, white space and stars (no array brackets)
    closed by one of [= ; {]; the code is that text without trailing white
    space and the line is the number of newlines before its start. *)
Theorem C7_global_extraction src path name hint r :
  extract_symbol src path name "global" hint = Ok (Some r) ->
  exists m before rest,
    finditer RGX_GLOBAL src = (before ++ m :: rest)%list /\
    Forall (fun m' => group_name src m' <> Some name) before /\
    group_name src m = Some name /\
    r = {| code := rstrip (slice src (m_start m) (m_end m));
           file := path_join repo_ path;
           line := Z.of_nat (count_nl (slice src 0 (m_start m))) |} /\
    at_bol (cursor_prev None src (m_start m)) = true /\
    exists w t,
      slice src (m_start m) (m_end m) = w ++ String t EmptyString /\
      all_chars cls_global_run w = true /\
      cls_global_end t = true.
Proof.
  unfold _extract_symbol. simpl.
  destruct (first_named src name (finditer RGX_GLOBAL src)) as [m|] eqn:Hf;
    [|discriminate].
  intros [= <-].
  destruct (first_named_spec _ _ _ _ Hf) as (before & rest & Hms & Hb & Hn).
  exists m, before, rest. split_and!; [done|done|done|done|..].
  - assert (Hin : In m (finditer RGX_GLOBAL src)).
    { rewrite Hms. apply in_or_app. right. by left. }
    destruct (finditer_from_In _ _ _ _ _ _ Hin) as (k & Hk).
    destruct (rgx_global_shape _ _ _ _ Hk) as (-> & Hbol & _). exact Hbol.
  - assert (Hin : In m (finditer RGX_GLOBAL src)).
    { rewrite Hms. apply in_or_app. right. by left. }
    destruct (finditer_from_In _ _ _ _ _ _ Hin) as (k & Hk).
    destruct (rgx_global_shape _ _ _ _ Hk) as (-> & _ & w & t & rest' & Hd & Hw & Ht & ->).
    exists w, t. split_and!; [|done|done].
    simpl. by apply (slice_of_drop _ _ _ _ rest').
Qed.

(** The converse: when some match of [finditer] captures the name, the
    extraction returns a record. *)
Lemma global_extraction_complete src path name hint m :
  In m (finditer RGX_GLOBAL src) ->
  group_name src m = Some name ->
  exists r, extract_symbol src path name "global" hint = Ok (Some r).
Proof.
  intros Hin Hg. unfold _extract_symbol. simpl.
  assert (Hsome : exists m', first_named src name (finditer RGX_GLOBAL src) = Some m').
  { induction (finditer RGX_GLOBAL src) as [|m0 ms IH]; [done|]. simpl.
    destruct Hin as [->|Hin].
    - rewrite Hg, String.eqb_refl. by eexists.
    - destruct (group_name src m0) as [g|]; [destruct (String.eqb g name)|];
        eauto. }
  destruct Hsome as [m' ->]. by eexists.
Qed.

End Extractor.

(** C6 (the code departs from the claim).  In [defs.h] the macro is on
    line 2, after an include and an empty line.  The match starts at the
    empty line: the code returned is the empty line followed by the
    [#define] line, and the line returned is 1. *)
Theorem C6_macro_at_failing_input :
  slice Demo.src_defs 21 40 = "#define MAX_LEN 256" /\
  count_nl (slice Demo.src_defs 0 21) = 2 /\
  _extract_symbol Demo.parse Demo.parse Demo.path_join "/srv/repo"
    Demo.src_defs "defs.h" "MAX_LEN" "macro" 2
  = Ok (Some {| code := nl ++ "#define MAX_LEN 256";
                file := "/srv/repo/defs.h";
                line := 1 |}).
Proof. split_and!; reflexivity. Qed.

(** The array declaration [int buf[10];] is not matched: global-variable
    extraction of [buf] from it returns nothing, alone or in [defs.h]. *)
Lemma C7_counterexample :
  _extract_symbol Demo.parse Demo.parse Demo.path_join "/srv/repo"
    "int buf[10];" "defs.h" "buf" "global" 0 = Ok None /\
  _extract_symbol Demo.parse Demo.parse Demo.path_join "/srv/repo"
    Demo.src_defs "defs.h" "buf" "global" 0 = Ok None.
Proof. split; reflexivity. Qed.

Lemma C7_witness :
  exists m before rest,
    finditer RGX_GLOBAL Demo.src_globals = (before ++ m :: rest)%list /\
    Forall (fun m' => group_name Demo.src_globals m' <> Some "y") before /\
    group_name Demo.src_globals m = Some "y" /\
    Demo.rec_y = {| code := rstrip (slice Demo.src_globals (m_start m) (m_end m));
                    file := Demo.path_join "/srv/repo" "globals.c";
                    line := Z.of_nat (count_nl (slice Demo.src_globals 0 (m_start m))) |} /\
    at_bol (cursor_prev None Demo.src_globals (m_start m)) = true /\
    exists w t,
      slice Demo.src_globals (m_start m) (m_end m) = w ++ String t EmptyString /\
      all_chars cls_global_run w = true /\
      cls_global_end t = true.
Proof.
  apply (C7_global_extraction Demo.parse Demo.parse Demo.path_join "/srv/repo"
           Demo.src_globals "globals.c" "y" 0%Z Demo.rec_y).
  reflexivity.
Defined.

End ReFacts.

(** * Further properties of the backend *)

(** ** The two cache tiers *)

Section LruMore.
Context {K V : Type} `{EqDecision K}.
Implicit Types (c : list (K * V)).

Lemma lru_remove_key_head c k v : Lru.remove_key k ((k, v) :: c) = c.
Proof. simpl. by rewrite decide_True. Qed.

Lemma lru_find_touch c k v : Lru.find k (Lru.touch k v c) = Some v.
Proof. unfold Lru.touch. simpl. by rewrite decide_True. Qed.

Lemma lru_store_head c maxsize k v :
  (1 <= maxsize)%Z ->
  Lru.store maxsize k v c = (k, v) :: List.firstn (Z.to_nat maxsize - 1) c.
Proof.
  intros Hm. unfold Lru.store.
  destruct (Z.to_nat maxsize) as [|n] eqn:E; [lia|].
  simpl. by rewrite Nat.sub_0_r.
Qed.

Lemma lru_touch_head c k v : Lru.touch k v ((k, v) :: c) = (k, v) :: c.
Proof. unfold Lru.touch. by rewrite lru_remove_key_head. Qed.

Lemma lru_touch_touch c k v : Lru.touch k v (Lru.touch k v c) = Lru.touch k v c.
Proof. unfold Lru.touch at 2 3. apply lru_touch_head. Qed.

Lemma lru_remove_key_length c k v :
  Lru.find k c = Some v -> S (length (Lru.remove_key k c)) = length c.
Proof.
  induction c as [|[k' v'] c IH]; simpl; [discriminate|].
  destruct (decide (k = k')); [done|]. intros Hf. simpl. by rewrite (IH Hf).
Qed.

Lemma lru_touch_length c k v :
  Lru.find k c = Some v -> length (Lru.touch k v c) = length c.
Proof. intros Hf. unfold Lru.touch. simpl. by apply (lru_remove_key_length _ _ v). Qed.

Lemma lru_store_length c maxsize k v :
  length (Lru.store maxsize k v c) <= Z.to_nat maxsize.
Proof. unfold Lru.store. rewrite length_take. lia. Qed.

End LruMore.

Module StoreFacts.
Import PyStr Backend Ref.
Local Open Scope list_scope.

(** The warm store gives back what was put: a record written under a key
    is read back unchanged, the rows of the other keys are not affected,
    and a second write under the same key replaces the first. *)
Theorem warm_put_get k r s :
  let s' := state_of (Sym._warm_put k r s) in
  result (Sym._warm_get k s') = Ok (Some r) /\
  (forall k', k' <> k -> result (Sym._warm_get k' s') = result (Sym._warm_get k' s)) /\
  (forall r0, state_of (Sym._warm_put k r (state_of (Sym._warm_put k r0 s))) = s').
Proof.
  split_and!.
  - rewrite SymFacts.warm_get_spec. unfold warm. simpl.
    rewrite lookup_insert_eq. by destruct r.
  - intros k' Hne. rewrite !SymFacts.warm_get_spec. unfold warm. simpl.
    by rewrite lookup_insert_ne.
  - intros r0. unfold Sym._warm_put, state_of. simpl. by rewrite insert_insert_eq.
Qed.

(** With room for one entry or more, what [_hot_get] answered for a key it
    answers again without reading the store and without changing anything,
    whatever the store holds by then: a miss is memoised like a hit, and a
    row written to the store in the meantime is not seen. *)
Theorem hot_get_memoised self k s :
  (1 <= lru_size self)%Z ->
  let x := Sym._hot_get self k s in
  exists v,
    result x = Ok v /\
    forall d',
      let s1 := {| db := d'; hot := hot (state_of x);
                   sha_memo := sha_memo (state_of x) |} in
      Sym._hot_get self k s1 = (Ok v, s1, []).
Proof.
  intros Hcap. unfold Sym._hot_get at 1.
  destruct (Lru.find k (hot s)) as [v|] eqn:Hfind.
  - exists v. split; [done|]. intros d'. unfold Sym._hot_get. simpl.
    rewrite decide_True by done. by rewrite lru_touch_touch.
  - rewrite SymFacts.warm_get_spec. exists (warm (db s) k). split; [done|].
    intros d'. unfold Sym._hot_get. simpl.
    rewrite (lru_store_head _ _ _ _ Hcap). simpl. rewrite decide_True by done.
    by rewrite lru_touch_head.
Qed.

(** A resolved content hash is memoised: asked again for the same path,
    [_blob_sha] answers the same without running git and without changing
    anything.  A failed resolution is not memoised: it leaves the state as
    it was. *)
Theorem blob_sha_memoised git self path s :
  let x := Sym._blob_sha git self path s in
  (forall v, result x = Ok v ->
     Sym._blob_sha git self path (state_of x) = (Ok v, state_of x, [])) /\
  (result x = Raise -> state_of x = s /\ trace x = [EvRevParse path]).
Proof.
  intros x. assert (Hx : x = Sym._blob_sha git self path s) by done.
  clearbody x. unfold Sym._blob_sha in Hx.
  destruct (Lru.find path (sha_memo s)) as [v0|] eqn:Hfind.
  - subst x. split; [|done]. intros v [= <-]. unfold Sym._blob_sha.
    cbn [state_of fst snd sha_memo db hot].
    rewrite lru_find_touch. by rewrite lru_touch_touch.
  - destruct (rev_parse git (repo self) (commit self) path) as [out|];
      subst x; [|done].
    split; [|done]. intros v [= <-]. unfold Sym._blob_sha.
    cbn [state_of fst snd sha_memo db hot].
    assert (Hm : Lru.store 100000 path (strip out) (sha_memo s)
                 = (path, strip out)
                   :: List.firstn (Z.to_nat 100000 - 1) (sha_memo s))
      by (apply lru_store_head; lia).
    rewrite Hm.
    change (Lru.find path ((path, strip out) :: ?c))
      with (if decide (path = path) then Some (strip out) else Lru.find path c).
    rewrite decide_True by done. by rewrite lru_touch_head.
Qed.

End StoreFacts.

(** ** The candidate loop, continued *)

Module LookupFacts.
Import PyStr Backend Ref SymFacts.
Local Open Scope list_scope.

Section Facts.

Variable C_PARSER CPP_PARSER : string -> Node.
Variable path_join : string -> string -> string.
Variable git : Git.
Variable self : SymbolBackend.

Local Abbreviation _lookup := (Sym._lookup C_PARSER CPP_PARSER path_join git self).
Local Abbreviation lookup_loop := (Sym.lookup_loop C_PARSER CPP_PARSER path_join git self).
Local Abbreviation loop_pure := (Ref.loop_pure C_PARSER CPP_PARSER path_join git self).
Local Abbreviation lookup_pure := (Ref.lookup_pure C_PARSER CPP_PARSER path_join git self).
Local Abbreviation extract_pure := (Ref.extract_pure C_PARSER CPP_PARSER path_join self).
Local Abbreviation blob := (Ref.blob git self).
Local Abbreviation coherent := (Ref.coherent git self).
Local Abbreviation verified := (Ref.verified C_PARSER CPP_PARSER path_join self).
Local Abbreviation passes := (Ref.passes C_PARSER CPP_PARSER path_join git self).
Local Abbreviation key_of := (Ref.key_of self).
Local Abbreviation after := (Ref.after C_PARSER CPP_PARSER path_join git self).

(** A property of the state that the three state-changing steps keep is
    kept by the whole lookup. *)
Lemma loop_invariant (P : State -> Prop) name kind cands :
  (forall p s, P s -> P (state_of (Sym._blob_sha git self p s))) ->
  (forall k s, P s -> P (state_of (Sym._hot_get self k s))) ->
  (forall k r s, P s ->
     P (state_of (Sym.hot_cache_clear (state_of (Sym._warm_put k r s))))) ->
  forall s, P s -> P (state_of (lookup_loop name kind cands s)).
Proof.
  intros Hb Hh Hw. induction cands as [|[f h] rest IH]; intros s HP; simpl; [done|].
  pose proof (Hb f s HP) as HP1.
  destruct (Sym._blob_sha git self f s) as [[[sha|] s1] t1] eqn:E1;
    [|by rewrite (bind_Raise _ _ _ _ _ E1)].
  rewrite (bind_Ok _ _ _ _ _ _ E1). triple.
  pose proof (Hh (repo self, sha, kind, name) s1 HP1) as HP2.
  destruct (Sym._hot_get self (repo self, sha, kind, name) s1)
    as [[[cached|] s2] t2] eqn:E2; [|by rewrite (bind_Raise _ _ _ _ _ E2)].
  rewrite (bind_Ok _ _ _ _ _ _ E2). triple.
  destruct cached as [row|]; [done|].
  pose proof (git_show_spec git self sha s2) as Eshow.
  destruct (cat_file git (repo self) sha) as [src|];
    [|by rewrite (bind_Raise _ _ _ _ _ Eshow)].
  rewrite (bind_Ok _ _ _ _ _ _ Eshow). triple.
  pose proof (extract_spec C_PARSER CPP_PARSER path_join self src f name kind h s2) as Eex.
  destruct (extract_pure src f name kind h) as [[r|]|];
    [|rewrite (bind_Ok _ _ _ _ _ _ Eex); by apply IH
     |by rewrite (bind_Raise _ _ _ _ _ Eex)].
  rewrite (bind_Ok _ _ _ _ _ _ Eex). triple.
  apply (Hw (repo self, sha, kind, name) r s2 HP2).
Qed.

Lemma lookup_invariant (P : State -> Prop) name kind :
  (forall p s, P s -> P (state_of (Sym._blob_sha git self p s))) ->
  (forall k s, P s -> P (state_of (Sym._hot_get self k s))) ->
  (forall k r s, P s ->
     P (state_of (Sym.hot_cache_clear (state_of (Sym._warm_put k r s))))) ->
  forall s, P s -> P (state_of (_lookup name kind s)).
Proof.
  intros Hb Hh Hw s HP. unfold Sym._lookup.
  destruct (negb (in_KINDS kind)); [done|].
  destruct (grep_candidates_spec git self name kind s) as (t & E & _).
  rewrite (bind_Ok _ _ _ _ _ _ E). triple. by apply loop_invariant.
Qed.

(** The memos stay within their bounds: a lookup never leaves more than
    [lru_size] entries in the hot tier nor more than 100000 in the memo of
    [_blob_sha]. *)
Theorem memos_bounded name kind s :
  length (hot s) <= Z.to_nat (lru_size self) ->
  length (sha_memo s) <= Z.to_nat 100000 ->
  let s' := state_of (_lookup name kind s) in
  length (hot s') <= Z.to_nat (lru_size self) /\
  length (sha_memo s') <= Z.to_nat 100000.
Proof.
  intros Hhot Hmemo.
  apply (lookup_invariant
           (fun s => length (hot s) <= Z.to_nat (lru_size self) /\
                     length (sha_memo s) <= Z.to_nat 100000));
    [| | |done].
  - intros p s0 [H1 H2]. unfold Sym._blob_sha.
    destruct (Lru.find p (sha_memo s0)) as [v|] eqn:Hf.
    + cbn [state_of fst snd hot sha_memo]. by rewrite (lru_touch_length _ _ _ Hf).
    + destruct (rev_parse git (repo self) (commit self) p);
        cbn [state_of fst snd hot sha_memo]; [|done].
      split; [done|]. apply lru_store_length.
  - intros k s0 [H1 H2]. unfold Sym._hot_get.
    destruct (Lru.find k (hot s0)) as [v|] eqn:Hf.
    + cbn [state_of fst snd hot sha_memo]. by rewrite (lru_touch_length _ _ _ Hf).
    + rewrite warm_get_spec. cbn [state_of fst snd hot sha_memo].
      split; [apply lru_store_length|done].
  - intros k r s0 [H1 H2]. cbn [state_of fst snd hot sha_memo Sym.hot_cache_clear
                                 Sym._warm_put length]. split; [lia|done].
Qed.

(** A lookup writes at most one row.  Either it writes nothing and leaves
    the store as it was, or it returns a record, has added exactly the row
    of that record under a key of its symbol, and leaves the hot tier
    empty: the [REPLACE] is followed by the [cache_clear] and by nothing
    else. *)
Lemma loop_write_discipline name kind cands : forall s,
  let x := lookup_loop name kind cands s in
  (db (state_of x) = db s /\ filter is_write (trace x) = []) \/
  (exists sha r,
     result x = Ok (Some r) /\
     db (state_of x) = <[key_of sha kind name := row_of_rec r]> (db s) /\
     hot (state_of x) = [] /\
     filter is_write (trace x) = [EvReplace (key_of sha kind name) (row_of_rec r); EvHotClear]).
Proof.
  induction cands as [|[f h] rest IH]; intros s; simpl; [by left|].
  destruct (blob_sha_effect git self f s) as (Hdb1 & _ & Ht1).
  destruct (Sym._blob_sha git self f s) as [[[sha|] s1] t1] eqn:E1;
    cbv [state_of trace result fst snd] in Hdb1, Ht1;
    [|rewrite (bind_Raise _ _ _ _ _ E1); triple; left;
      by destruct Ht1 as [-> | ->]].
  rewrite (bind_Ok _ _ _ _ _ _ E1). triple.
  destruct (hot_get_effect self (repo self, sha, kind, name) s1) as (Hdb2 & _ & Ht2 & _).
  destruct (Sym._hot_get self (repo self, sha, kind, name) s1)
    as [[[cached|] s2] t2] eqn:E2;
    cbv [state_of trace result fst snd] in Hdb2, Ht2;
    [|rewrite (bind_Raise _ _ _ _ _ E2); triple; left;
      rewrite filter_app, Hdb2, Hdb1;
      by destruct Ht1 as [-> | ->], Ht2 as [-> | ->]].
  rewrite (bind_Ok _ _ _ _ _ _ E2). triple.
  assert (Hpre : filter is_write (t1 ++ t2) = []).
  { rewrite filter_app. by destruct Ht1 as [-> | ->], Ht2 as [-> | ->]. }
  destruct cached as [row|].
  { unfold ret. triple. left. rewrite !filter_app, app_nil_r, <- filter_app.
    by rewrite Hdb2, Hdb1. }
  pose proof (git_show_spec git self sha s2) as Eshow.
  destruct (cat_file git (repo self) sha) as [src|].
  2:{ rewrite (bind_Raise _ _ _ _ _ Eshow). triple. left.
      rewrite !filter_app in *. rewrite Hdb2, Hdb1.
      by destruct Ht1 as [-> | ->], Ht2 as [-> | ->]. }
  rewrite (bind_Ok _ _ _ _ _ _ Eshow). triple.
  pose proof (extract_spec C_PARSER CPP_PARSER path_join self src f name kind h s2) as Eex.
  destruct (extract_pure src f name kind h) as [[r|]|].
  - rewrite (bind_Ok _ _ _ _ _ _ Eex).
    unfold bind, Sym._warm_put, Sym.hot_cache_clear, ret. triple. simpl.
    right. exists sha, r. rewrite Hdb2, Hdb1. split_and!; [done|done|done|].
    rewrite !filter_app. by destruct Ht1 as [-> | ->], Ht2 as [-> | ->].
  - rewrite (bind_Ok _ _ _ _ _ _ Eex). triple.
    destruct (IH s2) as [(Hdb & Hw)|(sha' & r & Hr & Hdb & Hh & Hw)].
    + left. rewrite Hdb, Hdb2, Hdb1. split; [done|].
      rewrite !filter_app, Hw. by destruct Ht1 as [-> | ->], Ht2 as [-> | ->].
    + right. exists sha', r. rewrite Hdb, Hdb2, Hdb1. split_and!; [done|done|done|].
      rewrite !filter_app, Hw. by destruct Ht1 as [-> | ->], Ht2 as [-> | ->].
  - rewrite (bind_Raise _ _ _ _ _ Eex). triple. left.
    rewrite Hdb2, Hdb1. split; [done|].
    rewrite !filter_app. by destruct Ht1 as [-> | ->], Ht2 as [-> | ->].
Qed.

Theorem write_discipline name kind s :
  let x := _lookup name kind s in
  (db (state_of x) = db s /\ filter is_write (trace x) = []) \/
  (exists sha r,
     result x = Ok (Some r) /\
     db (state_of x) = <[key_of sha kind name := row_of_rec r]> (db s) /\
     hot (state_of x) = [] /\
     filter is_write (trace x) = [EvReplace (key_of sha kind name) (row_of_rec r); EvHotClear]).
Proof.
  unfold Sym._lookup. destruct (negb (in_KINDS kind)); [by left|].
  destruct (grep_candidates_spec git self name kind s) as (t & E & Ht).
  rewrite (bind_Ok _ _ _ _ _ _ E). triple.
  destruct (loop_write_discipline name kind (Ref.candidates git self name kind) s)
    as [(Hdb & Hw)|(sha & r & Hr & Hdb & Hh & Hw)].
  - left. split; [done|]. rewrite filter_app, Hw. by destruct Ht as [-> | ->].
  - right. exists sha, r. split_and!; [done|done|done|].
    rewrite filter_app, Hw. by destruct Ht as [-> | ->].
Qed.

(** The memos are transparent: from a state whose memos agree with the
    warm store and with git, a lookup returns what the candidate loop
    without any memo returns on the warm store alone, leaves the store that
    loop leaves, and leaves the memos in agreement. *)
Theorem memos_transparent name kind s :
  coherent s ->
  let x := _lookup name kind s in
  result x = (lookup_pure name kind (db s)).1 /\
  db (state_of x) = (lookup_pure name kind (db s)).2 /\
  coherent (state_of x).
Proof. apply lookup_spec. Qed.

(** The row the memo-free loop adds is under a key that had none. *)
Lemma loop_pure_fresh name kind cands : forall d r d',
  loop_pure name kind d cands = (r, d') ->
  d' = d \/
  exists sha r', d !! key_of sha kind name = None /\
                 d' = <[key_of sha kind name := row_of_rec r']> d.
Proof.
  induction cands as [|[f h] rest IH]; intros d r d'; simpl.
  { intros [= <- <-]. by left. }
  destruct (blob f) as [sha|]; [|intros [= <- <-]; by left].
  destruct (warm d (key_of sha kind name)) eqn:Hwarm; [intros [= <- <-]; by left|].
  destruct (cat_file git (repo self) sha) as [src|]; [|intros [= <- <-]; by left].
  destruct (extract_pure src f name kind h) as [[r0|]|].
  - intros [= <- <-]. right. exists sha, r0. split; [|done]. by apply warm_None.
  - apply IH.
  - intros [= <- <-]. by left.
Qed.

Lemma lookup_grows name kind s :
  coherent s -> db s ⊆ db (state_of (_lookup name kind s)).
Proof.
  intros Hco.
  destruct (lookup_spec C_PARSER CPP_PARSER path_join git self name kind s Hco)
    as (_ & -> & _).
  unfold Ref.lookup_pure. destruct (negb (in_KINDS kind)); [done|].
  destruct (loop_pure name kind (db s) _) as [r d'] eqn:E. simpl.
  destruct (loop_pure_fresh _ _ _ _ _ _ E) as [->|(sha & r' & Hnone & ->)]; [done|].
  by apply insert_subseteq.
Qed.

(** Rows are never deleted and never overwritten: when the memos agree
    with store and git, every row of the store is still there, unchanged,
    after any series of lookups. *)
Theorem rows_are_kept qs : forall s,
  coherent s -> db s ⊆ db (after qs s).
Proof.
  induction qs as [|[n k] qs IH]; intros s Hco; simpl; [done|].
  etrans; [by apply (lookup_grows n k)|].
  apply IH. by apply lookup_spec.
Qed.

Lemma loop_pure_result name kind cands : forall d r d',
  loop_pure name kind d cands = (Ok (Some r), d') ->
  (exists sha, warm d (key_of sha kind name) = Some r) \/
  (exists src f h, extract_pure src f name kind h = Ok (Some r)).
Proof.
  induction cands as [|[f h] rest IH]; intros d r d'; simpl; [discriminate|].
  destruct (blob f) as [sha|]; [|discriminate].
  destruct (warm d (key_of sha kind name)) as [r0|] eqn:Hwarm.
  { intros [= <- <-]. left. by exists sha. }
  destruct (cat_file git (repo self) sha) as [src|]; [|discriminate].
  destruct (extract_pure src f name kind h) as [[r0|]|] eqn:Hex; [| |discriminate].
  - intros [= <- <-]. right. by exists src, f, h.
  - apply IH.
Qed.

(** No record is made up: on a store whose rows are extractor results, a
    record returned by a lookup of [(name, kind)] is what the extractor
    returns for that name and kind on some text, path and hint, and its
    file is a path under the repository. *)
Theorem lookup_returns_extracted name kind s r :
  coherent s ->
  verified (db s) ->
  result (_lookup name kind s) = Ok (Some r) ->
  in_KINDS kind = true /\
  exists src path hint,
    extract_pure src path name kind hint = Ok (Some r) /\
    file r = path_join (repo self) path.
Proof.
  intros Hco Hver.
  destruct (lookup_spec C_PARSER CPP_PARSER path_join git self name kind s Hco)
    as (-> & _ & _).
  unfold Ref.lookup_pure. destruct (in_KINDS kind); simpl; [|discriminate].
  destruct (loop_pure name kind (db s) _) as [r0 d'] eqn:E. simpl. intros ->.
  split; [done|].
  assert (Hex : exists src path hint, extract_pure src path name kind hint = Ok (Some r)).
  { destruct (loop_pure_result _ _ _ _ _ _ E) as [(sha & Hw)|Hex]; [|done].
    unfold warm in Hw. destruct (db s !! key_of sha kind name) as [row|] eqn:Hrow;
      [|discriminate].
    injection Hw as <-. by apply (Hver sha). }
  destruct Hex as (src & path & hint & Hex). exists src, path, hint.
  split; [done|]. by apply (extract_file C_PARSER CPP_PARSER path_join self src path name kind hint).
Qed.

(** False candidates are skipped: when the candidates before one are
    passed over (their text read, nothing found) and that one holds the
    symbol, the lookup returns its record and stores it under its hash. *)
Theorem false_candidates_skipped name kind s pre f h post sha src r :
  coherent s ->
  in_KINDS kind = true ->
  Ref.candidates git self name kind = pre ++ (f, h) :: post ->
  Forall (passes name kind (db s)) pre ->
  blob f = Ok sha ->
  db s !! key_of sha kind name = None ->
  cat_file git (repo self) sha = Some src ->
  extract_pure src f name kind h = Ok (Some r) ->
  result (_lookup name kind s) = Ok (Some r) /\
  db (state_of (_lookup name kind s)) = <[key_of sha kind name := row_of_rec r]> (db s).
Proof.
  intros Hco Hk Hcands Hpre Hb Hd Hcat Hex.
  destruct (lookup_spec C_PARSER CPP_PARSER path_join git self name kind s Hco)
    as (-> & -> & _).
  unfold Ref.lookup_pure. rewrite Hk, Hcands. simpl.
  rewrite (loop_pure_passes C_PARSER CPP_PARSER path_join git self _ _ _ _ _ Hpre).
  simpl. rewrite Hb. unfold warm. rewrite Hd. simpl. by rewrite Hcat, Hex.
Qed.

End Facts.
End LookupFacts.

(** ** The caller and the candidate search *)

Module AgentFacts.
Import PyStr Backend.
Local Open Scope list_scope.

(** [_fetch_symbol] is [_lookup] on the lower-cased kind: the kinds it
    dispatches on are the kinds of [_KINDS], whatever their case, a
    failure of the backend passes through it, and for any other kind it
    returns [None] without a call to the backend. *)
Theorem fetch_symbol_is_lookup C_PARSER CPP_PARSER path_join git backend name kind s :
  Agent._fetch_symbol C_PARSER CPP_PARSER path_join git backend name kind s
  = Sym._lookup C_PARSER CPP_PARSER path_join git backend name (Agent.lower kind) s /\
  (in_KINDS (Agent.lower kind) = false ->
   Agent._fetch_symbol C_PARSER CPP_PARSER path_join git backend name kind s
   = (Ok None, s, [])).
Proof.
  unfold Agent._fetch_symbol, Sym.get_def, Sym.get_macro, Sym.get_global,
    Sym.get_typedef, Sym.get_struct, Sym.get_enum.
  remember (Agent.lower kind) as k eqn:Hk. clear Hk.
  repeat match goal with
         | |- context [if String.eqb k ?c then _ else _] =>
             destruct (String.eqb_spec k c) as [->|?]; [by split|]
         end.
  assert (Hno : in_KINDS k = false).
  { unfold in_KINDS, _KINDS. simpl.
    repeat match goal with
           | H : k <> ?c |- context [String.eqb k ?c] =>
               rewrite (proj2 (String.eqb_neq k c) H)
           end.
    reflexivity. }
  unfold Sym._lookup. by rewrite Hno.
Qed.

Lemma after_first_colon_prefix (c p : string) :
  all_chars (fun ch => negb (Ascii.eqb ch ":"%char)) c = true ->
  after_first_colon (c ++ String ":"%char p)%string = Some p.
Proof.
  induction c as [|ch c IH]; [done|].
  rewrite ReFacts.append_cons. simpl.
  intros [Hch Hc]%andb_true_iff.
  destruct (Ascii.eqb ch ":"%char); [discriminate|]. by apply IH.
Qed.

(** The fallback candidates are the files git lists, in its order, each
    with the hint 0: the commit in front of each line is cut at the first
    colon, so a colon in the path itself does no harm. *)
Theorem fallback_candidates git self name kind paths :
  grep_nP git (repo self) (_grep_pattern kind name) (commit self) = [] ->
  all_chars (fun ch => negb (Ascii.eqb ch ":"%char)) (commit self) = true ->
  grep_l git (repo self) name (commit self)
  = map (fun p => (commit self ++ String ":"%char p)%string) paths ->
  Ref.candidates git self name kind = map (fun p => (p, 0%Z)) paths.
Proof.
  intros Hnone Hcommit Hl. unfold Ref.candidates. rewrite Hnone, Hl, map_map.
  apply map_ext. intros p. by rewrite (after_first_colon_prefix _ _ Hcommit).
Qed.

End AgentFacts.

(** ** The node finders, continued *)

Module TreeMore.
Import PyStr Backend Tree TreeFacts.
Local Open Scope list_scope.

Lemma Node_ind_all (P : Node -> Prop) :
  (forall t ln a b s cs, Forall P cs -> P (mkNode t ln a b s cs)) ->
  forall n, P n.
Proof.
  intros H. fix IH 1. intros [t ln a b s cs]. apply H.
  induction cs as [|c cs IHcs]; constructor; [apply IH|apply IHcs].
Qed.

Lemma walk_unfold n : walk n = n :: flat_map walk (children n).
Proof. by destruct n. Qed.

Lemma walk_self n : In n (walk n).
Proof. rewrite walk_unfold. by left. Qed.

Lemma walk_child n c x : In c (children n) -> In x (walk c) -> In x (walk n).
Proof.
  intros Hc Hx. rewrite walk_unfold. right. apply in_flat_map. by exists c.
Qed.

Lemma walk_trans root : forall x y,
  In x (walk root) -> In y (walk x) -> In y (walk root).
Proof.
  induction root as [t ln a b s cs IH] using Node_ind_all. intros x y Hx Hy.
  rewrite walk_unfold in Hx. destruct Hx as [<-|Hx]; [done|].
  apply in_flat_map in Hx as (c & Hc & Hx). simpl in Hc.
  rewrite Forall_forall in IH.
  apply (walk_child _ c); [done|].
  exact (IH c (proj2 (list_elem_of_In _ _) Hc) x y Hx Hy).
Qed.

Lemma kids_In l c :
  In c (kids l) -> In (here c) (children (here l)) /\ ups c = here l :: ups l.
Proof.
  unfold kids. intros (c' & <- & Hc)%in_map_iff. by split.
Qed.

Lemma monotone_children n c :
  monotone n = true -> In c (children n) ->
  (start_line n <= start_line c)%Z /\ monotone c = true.
Proof.
  destruct n as [t ln a b s cs]. simpl. intros Hm Hc.
  rewrite forallb_forall in Hm. specialize (Hm c Hc).
  apply andb_true_iff in Hm as [Hle Hm]. split; [lia|done].
Qed.

Lemma monotone_le root : forall x,
  monotone root = true -> In x (walk root) ->
  (start_line root <= start_line x)%Z.
Proof.
  induction root as [t ln a b s cs IH] using Node_ind_all. intros x Hm Hx.
  rewrite walk_unfold in Hx. destruct Hx as [<-|Hx]; [lia|].
  apply in_flat_map in Hx as (c & Hc & Hx).
  destruct (monotone_children _ c Hm Hc) as [Hle Hmc].
  rewrite Forall_forall in IH.
  specialize (IH c (proj2 (list_elem_of_In _ _) Hc) x Hmc Hx). lia.
Qed.

Lemma located_walk root l : located root l -> In (here l) (walk root).
Proof.
  induction 1 as [|l c _ IH Hc]; [apply walk_self|].
  apply kids_In in Hc as [Hc _].
  apply (walk_trans _ (here l)); [done|].
  apply (walk_child _ (here c)); [done|apply walk_self].
Qed.

(** In a tree where no node starts before its parent, the ancestors of a
    located node start on its line or above. *)
Lemma located_ups_le root l :
  monotone root = true -> located root l ->
  monotone (here l) = true /\
  Forall (fun a => (start_line a <= start_line (here l))%Z) (ups l).
Proof.
  intros Hm. induction 1 as [|l c _ [IHm IHu] Hc]; [by split|].
  apply kids_In in Hc as [Hc ->].
  destruct (monotone_children _ _ IHm Hc) as [Hle Hmc].
  split; [done|]. constructor; [done|].
  eapply Forall_impl; [exact IHu|]. simpl. intros a Ha. lia.
Qed.

Lemma node_at_line_loop_located root ln : forall fuel queue l,
  Forall (located root) queue ->
  node_at_line_loop fuel queue ln = Some l -> located root l.
Proof.
  induction fuel as [|fuel IH]; intros queue l Hq; simpl; [discriminate|].
  destruct (pop queue) as [[n q]|] eqn:Hpop; [|discriminate].
  apply pop_Some in Hpop. subst queue.
  apply Forall_app in Hq as [Hq Hn]. apply Forall_inv in Hn.
  destruct (start_line (here n) =? ln)%Z; [by intros [= <-]|].
  apply IH. apply Forall_app. split; [done|].
  apply Forall_forall. intros c Hc.
  apply list_elem_of_filter in Hc as [_ Hc].
  apply (located_kid _ n); [done|by apply list_elem_of_In].
Qed.

Lemma seed_sound root ln l :
  _node_at_line root ln = Some l ->
  located root l /\
  In (here l) (walk root) /\
  start_line (here l) = ln /\
  Forall (fun a => start_line a <> ln) (ups l).
Proof.
  intros Hl.
  assert (Hloc : located root l).
  { apply (node_at_line_loop_located root ln (S (nsize root)) [at_root root]); [|exact Hl].
    repeat constructor. }
  destruct (node_at_line_outermost _ _ _ Hl) as [Hln Hups].
  split_and!; [done|by apply located_walk|done|done].
Qed.

Lemma node_at_line_loop_complete ln : forall fuel queue,
  list_sum (map (fun l => nsize (here l)) queue) < fuel ->
  Exists (reach ln) queue ->
  is_Some (node_at_line_loop fuel queue ln).
Proof.
  induction fuel as [|fuel IH]; intros queue Hsz Hex; [lia|]. simpl.
  destruct (pop queue) as [[n q]|] eqn:Hpop.
  2:{ apply pop_None in Hpop. subst queue. by apply Exists_nil in Hex. }
  apply pop_Some in Hpop. subst queue.
  destruct (Z.eqb_spec (start_line (here n)) ln) as [Heq|Hne]; [by eexists|].
  apply IH.
  - rewrite !map_app, !list_sum_app in *. simpl in Hsz.
    pose proof (list_sum_filter_le (fun c => nsize (here c))
                  (fun c => (start_line (here c) <=? ln)%Z) (kids n)) as Hf.
    rewrite kids_size in Hf. rewrite (nsize_children (here n)) in Hsz. lia.
  - apply Exists_app. apply Exists_app in Hex as [Hex|Hex]; [by left|right].
    apply Exists_cons in Hex as [Hn|Hex]; [|by apply Exists_nil in Hex].
    destruct Hn as [l Hl|l c Hc Hle Hr]; [done|].
    apply Exists_exists. exists c. split; [|done].
    apply list_elem_of_filter. split; [|by apply list_elem_of_In].
    apply Is_true_true. by apply Z.leb_le.
Qed.

Lemma monotone_reach ln n : forall anc x,
  monotone n = true -> In x (walk n) -> start_line x = ln ->
  reach ln (mkLoc n anc).
Proof.
  induction n as [t l0 a b s cs IH] using Node_ind_all. intros anc x Hm Hx Hln.
  rewrite walk_unfold in Hx. destruct Hx as [<-|Hx]; [by apply reach_here|].
  apply in_flat_map in Hx as (c & Hc & Hx).
  destruct (monotone_children _ c Hm Hc) as [_ Hmc].
  rewrite Forall_forall in IH.
  apply (reach_kid ln _ (mkLoc c (mkNode t l0 a b s cs :: anc))).
  - unfold kids. apply in_map_iff. by exists c.
  - simpl. rewrite <- Hln. by apply monotone_le.
  - by apply (IH c (proj2 (list_elem_of_In _ _) Hc) _ x).
Qed.

(** In a tree where no node starts before its parent, [_node_at_line]
    finds a node exactly when some node of the tree starts on the line. *)
Theorem node_at_line_complete root ln :
  monotone root = true ->
  (is_Some (_node_at_line root ln) <->
   exists x, In x (walk root) /\ start_line x = ln).
Proof.
  intros Hm. split.
  - intros [l Hl]. destruct (seed_sound _ _ _ Hl) as (_ & Hin & Hln & _).
    by exists (here l).
  - intros (x & Hx & Hln). unfold _node_at_line.
    apply node_at_line_loop_complete; [simpl; lia|].
    apply Exists_cons_hd. by apply (monotone_reach ln root [] x).
Qed.

Lemma climb_from_sound test : forall anc n x,
  climb_from test n anc = Some x ->
  test x = true /\
  exists before rest,
    n :: anc = before ++ x :: rest /\ Forall (fun a => test a = false) before.
Proof.
  induction anc as [|p anc IH]; intros n x; simpl.
  - destruct (test n) eqn:Ht; [|discriminate]. intros [= <-].
    split; [done|]. by exists [], [].
  - destruct (test n) eqn:Ht.
    + intros [= <-]. split; [done|]. by exists [], (p :: anc).
    + intros Hx. destruct (IH _ _ Hx) as (Htx & before & rest & Heq & Hb).
      split; [done|]. exists (n :: before), rest. rewrite Heq.
      split; [done|by constructor].
Qed.

Lemma finder_result kind finder root ident hint n :
  finder_of kind = Some finder ->
  finder root ident hint = Some n ->
  In n (walk root) /\
  (kind = "function" /\ is_function ident n = true \/
   kind = "typedef" /\ is_typedef ident n = true \/
   kind = "struct" /\ is_specifier "struct_specifier" ident n = true \/
   kind = "enum" /\ is_specifier "enum_specifier" ident n = true) /\
  (exists seed, _node_at_line root hint = Some seed /\
     (n = here seed \/ In n (ups seed))) /\
  (monotone root = true -> (start_line n <= hint)%Z).
Proof.
  intros Hf Hn.
  assert (Hclimb : exists test,
             climb test (_node_at_line root hint) = Some n /\
             (kind = "function" /\ test = is_function ident \/
              kind = "typedef" /\ test = is_typedef ident \/
              kind = "struct" /\ test = is_specifier "struct_specifier" ident \/
              kind = "enum" /\ test = is_specifier "enum_specifier" ident)).
  { unfold finder_of in Hf.
    repeat match type of Hf with
           | (if String.eqb kind ?k then _ else _) = _ =>
               destruct (String.eqb_spec kind k) as [->|_];
                 [injection Hf as <-; eexists; split; [exact Hn|tauto]|]
           end.
    discriminate. }
  destruct Hclimb as (test & Hc & Hkind).
  unfold climb in Hc.
  destruct (_node_at_line root hint) as [seed|] eqn:Hseed; [|discriminate].
  destruct (seed_sound _ _ _ Hseed) as (Hloc & Hin & Hln & _).
  destruct (climb_from_sound _ _ _ _ Hc) as (Htest & before & rest & Heq & _).
  assert (Hmem : n = here seed \/ In n (ups seed)).
  { assert (Hi : In n (here seed :: ups seed)).
    { rewrite Heq. apply in_or_app. right. by left. }
    destruct Hi as [<-|Hi]; [by left|by right]. }
  split_and!.
  - destruct Hmem as [->|Hu]; [done|].
    clear -Hloc Hu. induction Hloc as [|l c Hl IH Hc]; [done|].
    apply kids_In in Hc as [_ Hc]. rewrite Hc in Hu.
    destruct Hu as [<-|Hu]; [by apply located_walk|by apply IH].
  - destruct Hkind as [[-> ->]|[[-> ->]|[[-> ->]|[-> ->]]]]; tauto.
  - by exists seed.
  - intros Hm. destruct (located_ups_le _ _ Hm Hloc) as [_ Hups].
    destruct Hmem as [->|Hu]; [lia|].
    rewrite Forall_forall in Hups.
    specialize (Hups n (proj2 (list_elem_of_In _ _) Hu)). lia.
Qed.

(** What [_node_at_line] returns is a node of the tree with its chain of
    ancestors; it starts on the line asked for and none of its ancestors
    does. *)
Theorem node_at_line_sound root ln l :
  _node_at_line root ln = Some l ->
  located root l /\
  In (here l) (walk root) /\
  start_line (here l) = ln /\
  Forall (fun a => start_line a <> ln) (ups l).
Proof. apply seed_sound. Qed.

(** What a finder returns is a node of the tree that passes the test of
    its kind (the defining node type, and the requested name where the
    finder looks for it); it is the seed of the hinted line or an ancestor
    of it; and in a tree where no node starts before its parent it starts
    on the hinted line or above. *)
Theorem finder_sound kind finder root ident hint n :
  finder_of kind = Some finder ->
  finder root ident hint = Some n ->
  In n (walk root) /\
  (kind = "function" /\ is_function ident n = true \/
   kind = "typedef" /\ is_typedef ident n = true \/
   kind = "struct" /\ is_specifier "struct_specifier" ident n = true \/
   kind = "enum" /\ is_specifier "enum_specifier" ident n = true) /\
  (exists seed, _node_at_line root hint = Some seed /\
     (n = here seed \/ In n (ups seed))) /\
  (monotone root = true -> (start_line n <= hint)%Z).
Proof. apply finder_result. Qed.

Lemma node_at_line_run_spec ln : forall fuel queue fuel2,
  list_sum (map (fun l => nsize (here l)) queue) <= fuel ->
  list_sum (map (fun l => nsize (here l)) queue) < fuel2 ->
  exists k,
    k <= list_sum (map (fun l => nsize (here l)) queue) /\
    node_at_line_run fuel queue ln = Some (node_at_line_loop fuel2 queue ln, k).
Proof.
  induction fuel as [|fuel IH]; intros queue fuel2 Hsz Hsz2;
    (destruct fuel2 as [|fuel2]; [lia|]); simpl;
    (destruct (pop queue) as [[n q]|] eqn:Hpop; [|by exists 0; split; [lia|]]);
    apply pop_Some in Hpop; subst queue;
    rewrite !map_app, !list_sum_app in *; simpl in Hsz, Hsz2 |- *;
    pose proof (nsize_children (here n)) as Hn.
  { lia. }
  destruct (start_line (here n) =? ln)%Z; [exists 1; split; [lia|done]|].
  pose proof (list_sum_filter_le (fun c => nsize (here c))
                (fun c => (start_line (here c) <=? ln)%Z) (kids n)) as Hf.
  rewrite kids_size in Hf.
  destruct (IH (q ++ filter (fun c => (start_line (here c) <=? ln)%Z) (kids n)) fuel2)
    as (k & Hk & ->); rewrite ?map_app, ?list_sum_app in *; [lia|lia|].
  exists (S k). split; [lia|done].
Qed.

(** [_node_at_line] returns, after at most one iteration per node of the
    tree: given room for as many iterations as the tree has nodes, the
    loop comes to its end within them, with the value [_node_at_line]
    returns (a [None] is the queue found empty). *)
Theorem node_at_line_terminates root ln fuel :
  nsize root <= fuel ->
  exists k,
    k <= nsize root /\
    node_at_line_run fuel [at_root root] ln = Some (_node_at_line root ln, k).
Proof.
  intros Hle. unfold _node_at_line.
  destruct (node_at_line_run_spec ln fuel [at_root root] (S (nsize root)))
    as (k & Hk & E); simpl in *; [lia|lia|].
  exists k. split; [lia|done].
Qed.

End TreeMore.

(** ** The fallback candidates of the structural kinds *)

Module FallbackFacts.
Import PyStr Backend Ref Tree TreeFacts TreeMore SymFacts.
Local Open Scope list_scope.

Lemma located_root_above root l :
  located root l -> here l = root \/ In root (ups l).
Proof.
  induction 1 as [|l c _ IH Hc]; [by left|].
  apply kids_In in Hc as [_ ->]. right.
  destruct IH as [->|IH]; [by left|by right].
Qed.

(** In the tree of a parsed file the seed of line 0 is the root, and there
    is one only when the root itself starts on line 0. *)
Lemma seed_hint0 root l :
  rooted root = true ->
  _node_at_line root 0 = Some l ->
  start_line root = 0%Z.
Proof.
  unfold rooted. intros [[Hm Hge]%andb_true_iff _]%andb_true_iff Hl.
  apply Z.leb_le in Hge.
  destruct (seed_sound _ _ _ Hl) as (Hloc & _ & Hln & Hne).
  destruct (located_ups_le _ _ Hm Hloc) as [_ Hle].
  destruct (located_root_above _ _ Hloc) as [<-|Hin]; [done|].
  rewrite Forall_forall in Hne, Hle.
  apply list_elem_of_In in Hin.
  specialize (Hne _ Hin). specialize (Hle _ Hin). lia.
Qed.

(** Given the hint 0, each of the four finders finds nothing in the tree
    of a parsed file, whatever the file defines. *)
Lemma finder_rooted_hint0 kind finder root ident :
  finder_of kind = Some finder ->
  rooted root = true ->
  finder root ident 0%Z = None.
Proof.
  intros Hf Hroot.
  destruct (Z.eq_dec (start_line root) 0%Z) as [Hz|Hnz].
  { apply (finder_hint0_none kind); [done|done|].
    unfold rooted in Hroot. apply andb_true_iff in Hroot as [_ Hty].
    by apply String.eqb_eq. }
  assert (Hnone : _node_at_line root 0 = None).
  { destruct (_node_at_line root 0) as [l|] eqn:Hl; [|done].
    by destruct Hnz; apply (seed_hint0 root l). }
  unfold finder_of in Hf.
  repeat match type of Hf with
         | (if ?b then _ else _) = _ => destruct b
         end;
    try discriminate; injection Hf as <-;
    unfold _find_function, _find_typedef, _find_struct, _find_enum;
    by rewrite Hnone.
Qed.

Section Fallback.

Variable C_PARSER CPP_PARSER : string -> Node.
Variable path_join : string -> string -> string.
Variable git : Git.
Variable self : SymbolBackend.

Local Abbreviation tree_of := (Tree.tree_of C_PARSER CPP_PARSER).

Lemma extract_rooted_hint0 src path name kind finder :
  finder_of kind = Some finder ->
  rooted (tree_of path src) = true ->
  extract_pure C_PARSER CPP_PARSER path_join self src path name kind 0 = Ok None.
Proof.
  intros Hf Hroot. unfold extract_pure, _extract_symbol.
  destruct (finder_of_structural _ _ Hf) as [-> ->]. rewrite Hf.
  unfold Tree.tree_of in Hroot.
  by rewrite (finder_rooted_hint0 _ _ _ name Hf Hroot).
Qed.

Lemma loop_pure_fallback name kind finder d cands :
  finder_of kind = Some finder ->
  Forall (fun c =>
            c.2 = 0%Z /\
            forall sha src,
              blob git self c.1 = Ok sha ->
              cat_file git (repo self) sha = Some src ->
              rooted (tree_of c.1 src) = true) cands ->
  let y := loop_pure C_PARSER CPP_PARSER path_join git self name kind d cands in
  y.2 = d /\
  (forall r, y.1 = Ok (Some r) ->
     exists sha, warm d (key_of self sha kind name) = Some r) /\
  ((forall sha, d !! key_of self sha kind name = None) ->
   y.1 = Ok None \/ y.1 = Raise).
Proof.
  intros Hf. induction 1 as [|[f h] cands [Hh Hroot] _ IH]; simpl.
  { split_and!; [done|done|by left]. }
  simpl in Hh, Hroot. subst h.
  destruct (blob git self f) as [sha|] eqn:Hb; simpl;
    [|split_and!; [done|done|by right]].
  destruct (warm d (key_of self sha kind name)) as [r0|] eqn:Hwarm; simpl.
  { split_and!; [done|intros r [= <-]; by exists sha|].
    intros Hd. unfold warm in Hwarm. by rewrite Hd in Hwarm. }
  destruct (cat_file git (repo self) sha) as [src|] eqn:Hcat; simpl;
    [|split_and!; [done|done|by right]].
  rewrite (extract_rooted_hint0 src f name kind finder Hf (Hroot sha src eq_refl Hcat)).
  exact IH.
Qed.

(** In fallback mode a lookup of a function, typedef, struct or enum never
    extracts a record, whatever the candidate files define: it writes no
    row, a record it returns is a row the store already had, and on a
    store without rows for the symbol it returns [None] or raises.  The
    trees of the candidate files are those of a parser: rooted in a
    [translation_unit], no node starting before its parent. *)
Theorem fallback_structural_never_found name kind finder s :
  finder_of kind = Some finder ->
  coherent git self s ->
  grep_nP git (repo self) (_grep_pattern kind name) (commit self) = [] ->
  (forall f sha src,
     In f (map fst (candidates git self name kind)) ->
     blob git self f = Ok sha ->
     cat_file git (repo self) sha = Some src ->
     rooted (tree_of f src) = true) ->
  let x := Sym._lookup C_PARSER CPP_PARSER path_join git self name kind s in
  db (state_of x) = db s /\
  (forall r, result x = Ok (Some r) ->
     exists sha, warm (db s) (key_of self sha kind name) = Some r) /\
  ((forall sha, db s !! key_of self sha kind name = None) ->
   result x = Ok None \/ result x = Raise).
Proof.
  intros Hf Hco Hgrep Hroot. cbv zeta.
  destruct (lookup_spec C_PARSER CPP_PARSER path_join git self name kind s Hco)
    as (-> & -> & _).
  unfold lookup_pure. destruct (negb (in_KINDS kind)); simpl.
  { split_and!; [done|done|by left]. }
  apply (loop_pure_fallback name kind finder); [done|].
  pose proof (fallback_hints git self name kind Hgrep) as Hhints.
  rewrite Forall_forall in Hhints. apply Forall_forall. intros c Hc.
  split; [by apply Hhints|]. intros sha src. apply Hroot.
  apply in_map. by apply list_elem_of_In.
Qed.

End Fallback.
End FallbackFacts.

(** ** The extractor, continued *)

Module ExtractFacts.
Import PyStr Re Backend Tree ReFacts.

Lemma count_nl_take n : forall s, count_nl (take n s) <= count_nl s.
Proof.
  induction n as [|n IH]; intros [|c s]; simpl; try lia.
  specialize (IH s). lia.
Qed.

Lemma rstrip_idem s : rstrip (rstrip s) = rstrip s.
Proof.
  induction s as [|c s IH]; simpl; [done|].
  destruct (rstrip s) as [|d t] eqn:E.
  - destruct (is_space c) eqn:Hc; simpl; [done|]. by rewrite Hc.
  - simpl in *. by rewrite IH.
Qed.

Lemma slice_from_0 src n : slice src 0 n = take n src.
Proof. unfold slice. by rewrite Nat.sub_0_r. Qed.

Section Extractor.

Variable C_PARSER CPP_PARSER : string -> Node.
Variable path_join : string -> string -> string.
Variable repo_ : string.

Local Abbreviation extract_symbol := (_extract_symbol C_PARSER CPP_PARSER path_join repo_).

(** A record of a structural kind is cut out of the text at the span of
    the node the finder returned, a node of the parse tree; its line is the
    start line of that node, which is the hinted line or a line above it
    when the parsers build trees in which no node starts before its
    parent. *)
Theorem structural_record src path name kind finder hint r :
  finder_of kind = Some finder ->
  (forall src, monotone (C_PARSER src) = true) ->
  (forall src, monotone (CPP_PARSER src) = true) ->
  extract_symbol src path name kind hint = Ok (Some r) ->
  let root := (if is_cpp_path path then CPP_PARSER else C_PARSER) src in
  exists node,
    finder root name hint = Some node /\
    In node (walk root) /\
    code r = slice src (start_byte node) (end_byte node) /\
    file r = path_join repo_ path /\
    line r = start_line node /\
    (line r <= hint)%Z.
Proof.
  intros Hf Hc Hcpp. unfold _extract_symbol.
  destruct (TreeFacts.finder_of_structural _ _ Hf) as [-> ->]. rewrite Hf.
  intros Hr. set (root := (if is_cpp_path path then CPP_PARSER else C_PARSER) src) in *.
  destruct (finder root name hint) as [node|] eqn:Hn; [|discriminate].
  injection Hr as <-. exists node.
  destruct (TreeMore.finder_result _ _ _ _ _ _ Hf Hn) as (Hin & _ & _ & Hle).
  split_and!; try done. simpl. apply Hle.
  unfold root. destruct (is_cpp_path path); [apply Hcpp|apply Hc].
Qed.

(** A record of a macro or of a global is well formed: its line is a line
    of the text (between 0 and the number of newlines), its code carries
    no trailing white space, and its file is the candidate path joined to
    the repository. *)
Theorem pattern_record src path name kind hint r :
  kind = "macro" \/ kind = "global" ->
  extract_symbol src path name kind hint = Ok (Some r) ->
  (0 <= line r <= Z.of_nat (count_nl src))%Z /\
  rstrip (code r) = code r /\
  file r = path_join repo_ path.
Proof.
  intros Hk Hr.
  assert (Hb : exists a b, r = _build_rec path_join repo_ path src a b).
  { unfold _extract_symbol in Hr. destruct Hk as [-> | ->]; simpl in Hr.
    - destruct (search (RGX_MACRO name) src) as [m|]; [|discriminate].
      injection Hr as <-. by eexists _, _.
    - destruct (first_named src name (finditer RGX_GLOBAL src)) as [m|];
        [|discriminate].
      injection Hr as <-. by eexists _, _. }
  destruct Hb as (a & b & ->). unfold _build_rec. simpl.
  split_and!; [lia| |apply rstrip_idem|done].
  rewrite slice_from_0. pose proof (count_nl_take a src). lia.
Qed.

End Extractor.
End ExtractFacts.

(** ** The shape of a macro match *)

Module MacroFacts.
Import PyStr Re Backend ReFacts.

Lemma append_nil_r (u : string) : u ++ EmptyString = u.
Proof. induction u as [|c u IH]; [done|]. by rewrite append_cons, IH. Qed.

Lemma take_append (u v : string) : take (String.length u) (u ++ v) = u.
Proof.
  rewrite <- (Nat.add_0_r (String.length u)), take_append_more.
  destruct v; apply append_nil_r.
Qed.

Lemma cursor_prev_nonempty p (s : string) :
  s <> EmptyString ->
  cursor_prev p s (String.length s) = cursor_prev None s (String.length s).
Proof. by destruct s. Qed.

Lemma lit_exact s : forall k prev rest pos cap res,
  lit s k prev rest pos cap = Some res ->
  exists rest',
    rest = s ++ rest' /\
    k (cursor_prev prev s (String.length s)) rest' (pos + String.length s) cap
    = Some res.
Proof.
  induction s as [|c s IH]; intros k prev rest pos cap res; simpl.
  { intros Hk. exists rest. by rewrite Nat.add_0_r. }
  destruct rest as [|d rest]; [discriminate|].
  destruct (Ascii.eqb_spec c d) as [<-|]; [|discriminate].
  intros Hk. destruct (IH _ _ _ _ _ _ Hk) as (rest' & -> & Hk').
  exists rest'. split; [done|].
  by replace (pos + S (String.length s)) with (S pos + String.length s) by lia.
Qed.

(** With nothing after it in the pattern, a greedy repetition takes every
    character it can. *)
Lemma star_accept_max c : forall rest prev pos cap,
  exists w rest',
    rest = w ++ rest' /\
    all_chars c w = true /\
    (rest' = EmptyString \/ exists ch r, rest' = String ch r /\ c ch = false) /\
    star c accept prev rest pos cap = Some (pos + String.length w, cap).
Proof.
  induction rest as [|ch rest IH]; intros prev pos cap.
  { exists EmptyString, EmptyString. simpl. rewrite Nat.add_0_r.
    split_and!; [done|done|by left|done]. }
  simpl. destruct (c ch) eqn:Hc.
  - destruct (IH (Some ch) (S pos) cap) as (w & rest' & -> & Hw & Hend & ->).
    exists (String ch w), rest'. simpl. rewrite Hc, Hw.
    split_and!; [done|done|done|].
    by replace (pos + S (String.length w)) with (S pos + String.length w) by lia.
  - exists EmptyString, (String ch rest). simpl. rewrite Nat.add_0_r.
    split_and!; [done|done|right; by exists ch, rest|done].
Qed.

Lemma inv_bol k prev rest pos cap res :
  mtch Bol k prev rest pos cap = Some res ->
  at_bol prev = true /\ k prev rest pos cap = Some res.
Proof. simpl. by destruct (at_bol prev). Qed.

Lemma inv_wordb k prev rest pos cap res :
  mtch Wordb k prev rest pos cap = Some res ->
  at_wordb prev rest = true /\ k prev rest pos cap = Some res.
Proof. simpl. by destruct (at_wordb prev rest). Qed.

Lemma inv_one c k prev rest pos cap res :
  mtch (One c) k prev rest pos cap = Some res ->
  exists ch rest',
    rest = String ch rest' /\ c ch = true /\ k (Some ch) rest' (S pos) cap = Some res.
Proof.
  simpl. destruct rest as [|ch rest]; [discriminate|].
  destruct (c ch) eqn:Hc; [|discriminate]. intros Hk. by exists ch, rest.
Qed.

Lemma inv_star c k prev rest pos cap res :
  mtch (Star c) k prev rest pos cap = Some res ->
  exists w rest' prev',
    rest = w ++ rest' /\ all_chars c w = true /\
    k prev' rest' (pos + String.length w) cap = Some res.
Proof. apply star_within. Qed.

Lemma inv_plus c k prev rest pos cap res :
  mtch (Plus c) k prev rest pos cap = Some res ->
  exists w rest' prev',
    rest = w ++ rest' /\ all_chars c w = true /\ w <> EmptyString /\
    k prev' rest' (pos + String.length w) cap = Some res.
Proof.
  simpl. destruct rest as [|ch rest]; [discriminate|].
  destruct (c ch) eqn:Hc; [|discriminate]. intros Hs.
  destruct (star_within _ _ _ _ _ _ _ Hs) as (w & rest' & prev' & -> & Hw & Hk).
  exists (String ch w), rest', prev'. simpl. rewrite Hc, Hw.
  split_and!; [done|done|done|].
  by replace (pos + S (String.length w)) with (S pos + String.length w) by lia.
Qed.

Lemma inv_lit s k prev rest pos cap res :
  mtch (Lit s) k prev rest pos cap = Some res ->
  exists rest',
    rest = s ++ rest' /\
    k (cursor_prev prev s (String.length s)) rest' (pos + String.length s) cap
    = Some res.
Proof. apply lit_exact. Qed.

(** A match of the macro pattern: white space, [#], white space, [define],
    white space, the name, a word boundary, and the rest of the line up to
    its end. *)
Lemma macro_match_shape name prev rest pos m :
  match_here (RGX_MACRO name) prev rest pos = Some m ->
  m_start m = pos /\
  at_bol prev = true /\
  exists ws1 ws2 ws3 tail rest' p,
    rest = ws1 ++ "#" ++ ws2 ++ "define" ++ ws3 ++ name ++ tail ++ rest' /\
    all_chars is_space ws1 = true /\
    all_chars is_space ws2 = true /\
    all_chars is_space ws3 = true /\
    ws3 <> EmptyString /\
    all_chars cls_not_newline tail = true /\
    (rest' = EmptyString \/ exists ch r, rest' = String ch r /\ is_newline ch = true) /\
    at_wordb (cursor_prev p name (String.length name)) (tail ++ rest') = true /\
    m_end m
    = pos + String.length (ws1 ++ "#" ++ ws2 ++ "define" ++ ws3 ++ name ++ tail).
Proof.
  unfold match_here.
  destruct (mtch (RGX_MACRO name) accept prev rest pos None) as [[e cap]|] eqn:Hm;
    [|discriminate].
  intros [= <-]. simpl. split; [done|].
  change (mtch (RGX_MACRO name) accept prev rest pos None) with
    (mtch Bol (mtch (Star is_space) (mtch (One cls_hash) (mtch (Star is_space)
       (mtch (Lit "define") (mtch (Plus is_space) (mtch (Lit name)
          (mtch Wordb (mtch (Star cls_not_newline) accept))))))))
       prev rest pos None) in Hm.
  apply inv_bol in Hm as [Hbol Hm]. split; [done|].
  apply inv_star in Hm as (ws1 & r1 & p1 & -> & Hws1 & Hm).
  apply inv_one in Hm as (ch & r2 & -> & Hch & Hm).
  apply Ascii.eqb_eq in Hch. subst ch.
  apply inv_star in Hm as (ws2 & r3 & p3 & -> & Hws2 & Hm).
  apply inv_lit in Hm as (r4 & -> & Hm).
  apply inv_plus in Hm as (ws3 & r5 & p5 & -> & Hws3 & Hne3 & Hm).
  apply inv_lit in Hm as (r6 & -> & Hm).
  apply inv_wordb in Hm as [Hwb Hm].
  change (mtch (Star cls_not_newline) accept) with (star cls_not_newline accept) in Hm.
  destruct (star_accept_max cls_not_newline r6
              (cursor_prev p5 name (String.length name))
              (pos + String.length ws1 + 1 + String.length ws2
               + String.length "define" + String.length ws3 + String.length name)
              None)
    as (tail & rest' & Hr6 & Htail & Hend & Hstar).
  replace (S (pos + String.length ws1)) with (pos + String.length ws1 + 1) in Hm by lia.
  rewrite Hstar in Hm. injection Hm as <- _. subst r6.
  exists ws1, ws2, ws3, tail, rest', p5.
  split_and!; try done.
  - destruct Hend as [->|(ch & r & -> & Hc)]; [by left|right].
    exists ch, r. split; [done|]. unfold cls_not_newline in Hc.
    by destruct (is_newline ch).
  - rewrite !length_append. simpl. lia.
Qed.

Section Extractor.

Variable C_PARSER CPP_PARSER : string -> Node.
Variable path_join : string -> string -> string.
Variable repo_ : string.

Local Abbreviation extract_symbol := (_extract_symbol C_PARSER CPP_PARSER path_join repo_).

(** The record of a macro.  The match starts where a line starts; the code
    is white space, [#], white space, [define], white space, the name and
    the rest of that line, cut at the first line end (a definition
    continued on the next line is not followed) and stripped on the right.
    A name that ends in a word character is followed by none: the macro
    found is the one of that name, not one of a longer name. *)
Theorem macro_record_shape src path name hint r :
  name <> EmptyString ->
  extract_symbol src path name "macro" hint = Ok (Some r) ->
  exists k ws1 ws2 ws3 tail rest',
    drop k src = ws1 ++ "#" ++ ws2 ++ "define" ++ ws3 ++ name ++ tail ++ rest' /\
    at_bol (cursor_prev None src k) = true /\
    all_chars is_space ws1 = true /\
    all_chars is_space ws2 = true /\
    all_chars is_space ws3 = true /\
    ws3 <> EmptyString /\
    all_chars cls_not_newline tail = true /\
    (rest' = EmptyString \/ exists ch r', rest' = String ch r' /\ is_newline ch = true) /\
    (word_before (cursor_prev None name (String.length name)) = true ->
     word_after tail = false) /\
    code r = rstrip (ws1 ++ "#" ++ ws2 ++ "define" ++ ws3 ++ name ++ tail) /\
    line r = Z.of_nat (count_nl (take k src)).
Proof.
  intros Hname. unfold _extract_symbol. simpl.
  destruct (search (RGX_MACRO name) src) as [m|] eqn:Hs; [|discriminate].
  intros [= <-].
  destruct (search_from_leftmost _ _ _ _ _ Hs) as (k & Hk & _).
  destruct (macro_match_shape _ _ _ _ _ Hk)
    as (Hstart & Hbol & ws1 & ws2 & ws3 & tail & rest' & p & Hd & H1 & H2 & H3
        & Hne & Ht & Hend & Hwb & He).
  simpl in Hstart, He.
  exists k, ws1, ws2, ws3, tail, rest'.
  split_and!; try done.
  - intros Hbefore. rewrite (cursor_prev_nonempty p _ Hname) in Hwb.
    unfold at_wordb in Hwb. rewrite Hbefore in Hwb.
    destruct tail as [|c t]; [done|].
    rewrite append_cons in Hwb. simpl in Hwb |- *. by destruct (is_word c).
  - unfold _build_rec. simpl. f_equal. rewrite Hstart, He. unfold slice.
    replace (k + String.length (ws1 ++ "#" ++ ws2 ++ "define" ++ ws3 ++ name ++ tail) - k)
      with (String.length (ws1 ++ "#" ++ ws2 ++ "define" ++ ws3 ++ name ++ tail))
      by lia.
    rewrite Hd.
    replace (ws1 ++ "#" ++ ws2 ++ "define" ++ ws3 ++ name ++ tail ++ rest')
      with ((ws1 ++ "#" ++ ws2 ++ "define" ++ ws3 ++ name ++ tail) ++ rest').
    + apply take_append.
    + by rewrite !append_assoc.
  - unfold _build_rec. simpl. by rewrite Hstart, ExtractFacts.slice_from_0.
Qed.

End Extractor.
End MacroFacts.

(** ** The further properties on the demo repository *)

Module ExtraDemo.
Import PyStr Re Backend Ref Tree Demo.
Local Open Scope list_scope.

Lemma parse_monotone src : monotone (parse src) = true.
Proof.
  unfold parse.
  repeat match goal with
         | |- context [if ?b then _ else _] => destruct b; [reflexivity|]
         end.
  reflexivity.
Defined.

Lemma fresh_verified commit :
  verified parse parse path_join (backend commit) (db fresh).
Proof.
  intros sha kind name row H. simpl in H. by rewrite lookup_empty in H.
Defined.

Lemma hot_get_memoised_witness :
  let k := ("/srv/repo", "b10b", "function", "add") in
  let x := Sym._hot_get (backend "c1") k fresh in
  exists v,
    result x = Ok v /\
    forall d',
      let s1 := {| db := d'; hot := hot (state_of x);
                   sha_memo := sha_memo (state_of x) |} in
      Sym._hot_get (backend "c1") k s1 = (Ok v, s1, []).
Proof.
  apply (StoreFacts.hot_get_memoised (backend "c1")
           ("/srv/repo", "b10b", "function", "add") fresh).
  simpl. lia.
Defined.

Lemma memos_bounded_witness :
  let s' := state_of (lookup "c3" "add" "function" fresh) in
  length (hot s') <= Z.to_nat (lru_size (backend "c3")) /\
  length (sha_memo s') <= Z.to_nat 100000.
Proof.
  apply (LookupFacts.memos_bounded parse parse path_join git (backend "c3")
           "add" "function" fresh); apply Nat.le_0_l.
Defined.

Lemma memos_transparent_witness :
  let x := lookup "c3" "add" "function" fresh in
  result x = (lookup_pure parse parse path_join git (backend "c3")
                "add" "function" (db fresh)).1 /\
  db (state_of x) = (lookup_pure parse parse path_join git (backend "c3")
                       "add" "function" (db fresh)).2 /\
  coherent git (backend "c3") (state_of x).
Proof.
  apply (LookupFacts.memos_transparent parse parse path_join git (backend "c3")
           "add" "function" fresh).
  apply DemoFacts.fresh_coherent.
Defined.

Lemma rows_are_kept_witness :
  let s := attach (state_of (lookup "c1" "add" "function" fresh)) in
  db s ⊆ db (after parse parse path_join git (backend "c1")
               [("MAX_LEN", "macro"); ("add", "function")] s).
Proof.
  apply (LookupFacts.rows_are_kept parse parse path_join git (backend "c1")
           [("MAX_LEN", "macro"); ("add", "function")]).
  apply DemoFacts.attach_coherent.
Defined.

Lemma lookup_returns_extracted_witness :
  in_KINDS "function" = true /\
  exists src path hint,
    extract_pure parse parse path_join (backend "c3") src path "add" "function" hint
    = Ok (Some rec_add) /\
    file rec_add = path_join (repo (backend "c3")) path.
Proof.
  apply (LookupFacts.lookup_returns_extracted parse parse path_join git (backend "c3")
           "add" "function" fresh rec_add).
  - apply DemoFacts.fresh_coherent.
  - apply fresh_verified.
  - reflexivity.
Defined.

Lemma false_candidates_skipped_witness :
  result (lookup "c3" "add" "function" fresh) = Ok (Some rec_add) /\
  db (state_of (lookup "c3" "add" "function" fresh))
  = <[key_of (backend "c3") "b10b" "function" "add" := row_of_rec rec_add]> (db fresh).
Proof.
  apply (LookupFacts.false_candidates_skipped parse parse path_join git (backend "c3")
           "add" "function" fresh [("main.c", 1%Z)] "util.c" 1%Z [] "b10b" src_util rec_add).
  - apply DemoFacts.fresh_coherent.
  - reflexivity.
  - reflexivity.
  - constructor; [|constructor]. exists "3a17", src_main.
    split_and!; reflexivity.
  - reflexivity.
  - reflexivity.
  - reflexivity.
  - reflexivity.
Defined.

Lemma fallback_candidates_witness :
  candidates git (backend "c1") "mul" "function" = [("wide.c", 0%Z)].
Proof.
  apply (AgentFacts.fallback_candidates git (backend "c1") "mul" "function" ["wide.c"]);
    reflexivity.
Defined.

Lemma node_at_line_sound_witness :
  located tree_util (mkLoc fn_add [tree_util]) /\
  In fn_add (walk tree_util) /\
  start_line fn_add = 1%Z /\
  Forall (fun a => start_line a <> 1%Z) [tree_util].
Proof.
  apply (TreeMore.node_at_line_sound tree_util 1 (mkLoc fn_add [tree_util])).
  reflexivity.
Defined.

Lemma node_at_line_complete_witness :
  is_Some (_node_at_line tree_util 1) <->
  exists x, In x (walk tree_util) /\ start_line x = 1%Z.
Proof.
  apply (TreeMore.node_at_line_complete tree_util 1). reflexivity.
Defined.

Lemma finder_sound_witness :
  In fn_add (walk tree_util) /\
  ("function" = "function" /\ is_function "add" fn_add = true \/
   "function" = "typedef" /\ is_typedef "add" fn_add = true \/
   "function" = "struct" /\ is_specifier "struct_specifier" "add" fn_add = true \/
   "function" = "enum" /\ is_specifier "enum_specifier" "add" fn_add = true) /\
  (exists seed, _node_at_line tree_util 1 = Some seed /\
     (fn_add = here seed \/ In fn_add (ups seed))) /\
  (monotone tree_util = true -> (start_line fn_add <= 1)%Z).
Proof.
  apply (TreeMore.finder_sound "function" _find_function tree_util "add" 1 fn_add);
    reflexivity.
Defined.

Lemma node_at_line_terminates_witness :
  exists k,
    k <= nsize tree_util /\
    node_at_line_run 8 [at_root tree_util] 1 = Some (_node_at_line tree_util 1, k).
Proof.
  apply (TreeMore.node_at_line_terminates tree_util 1 8). vm_compute. lia.
Defined.

Lemma structural_record_witness :
  exists node,
    _find_function (parse src_util) "add" 1 = Some node /\
    In node (walk (parse src_util)) /\
    code rec_add = slice src_util (start_byte node) (end_byte node) /\
    file rec_add = path_join "/srv/repo" "util.c" /\
    line rec_add = start_line node /\
    (line rec_add <= 1)%Z.
Proof.
  apply (ExtractFacts.structural_record parse parse path_join "/srv/repo"
           src_util "util.c" "add" "function" _find_function 1 rec_add).
  - reflexivity.
  - apply parse_monotone.
  - apply parse_monotone.
  - reflexivity.
Defined.

Lemma pattern_record_witness :
  (0 <= line rec_max_len <= Z.of_nat (count_nl src_defs))%Z /\
  rstrip (code rec_max_len) = code rec_max_len /\
  file rec_max_len = path_join "/srv/repo" "defs.h".
Proof.
  apply (ExtractFacts.pattern_record parse parse path_join "/srv/repo"
           src_defs "defs.h" "MAX_LEN" "macro" 2 rec_max_len).
  - by left.
  - reflexivity.
Defined.

Lemma macro_record_shape_witness :
  exists k ws1 ws2 ws3 tail rest',
    drop k src_defs
    = (ws1 ++ "#" ++ ws2 ++ "define" ++ ws3 ++ "MAX_LEN" ++ tail ++ rest')%string /\
    at_bol (cursor_prev None src_defs k) = true /\
    all_chars is_space ws1 = true /\
    all_chars is_space ws2 = true /\
    all_chars is_space ws3 = true /\
    ws3 <> EmptyString /\
    all_chars cls_not_newline tail = true /\
    (rest' = EmptyString \/ exists ch r', rest' = String ch r' /\ is_newline ch = true) /\
    (word_before (cursor_prev None "MAX_LEN" (String.length "MAX_LEN")) = true ->
     word_after tail = false) /\
    code rec_max_len
    = rstrip (ws1 ++ "#" ++ ws2 ++ "define" ++ ws3 ++ "MAX_LEN" ++ tail)%string /\
    line rec_max_len = Z.of_nat (count_nl (take k src_defs)).
Proof.
  apply (MacroFacts.macro_record_shape parse parse path_join "/srv/repo"
           src_defs "defs.h" "MAX_LEN" 2 rec_max_len).
  - discriminate.
  - reflexivity.
Defined.

Lemma macro_extraction_witness :
  exists m,
    match_here (RGX_MACRO "MAX_LEN") (cursor_prev None src_defs (m_start m))
      (drop (m_start m) src_defs) (m_start m) = Some m /\
    (forall j, j < m_start m ->
       match_here (RGX_MACRO "MAX_LEN") (cursor_prev None src_defs j)
         (drop j src_defs) j = None) /\
    code rec_max_len = rstrip (slice src_defs (m_start m) (m_end m)) /\
    file rec_max_len = path_join "/srv/repo" "defs.h" /\
    line rec_max_len = Z.of_nat (count_nl (slice src_defs 0 (m_start m))).
Proof.
  apply (ReFacts.macro_extraction parse parse path_join "/srv/repo"
           src_defs "defs.h" "MAX_LEN" 2 rec_max_len).
  reflexivity.
Defined.

Lemma global_extraction_complete_witness :
  exists r,
    _extract_symbol parse parse path_join "/srv/repo"
      src_globals "globals.c" "y" "global" 0 = Ok (Some r).
Proof.
  apply (ReFacts.global_extraction_complete parse parse path_join "/srv/repo"
           src_globals "globals.c" "y" 0%Z
           {| m_start := 11; m_end := 25; m_name := Some (23, 24) |}).
  - right. left. reflexivity.
  - reflexivity.
Defined.

Lemma fallback_structural_never_found_witness :
  let x := lookup "c1" "mul" "function" fresh in
  db (state_of x) = db fresh /\
  (forall r, result x = Ok (Some r) ->
     exists sha, warm (db fresh) (key_of (backend "c1") sha "function" "mul") = Some r) /\
  ((forall sha, db fresh !! key_of (backend "c1") sha "function" "mul" = None) ->
   result x = Ok None \/ result x = Raise).
Proof.
  apply (FallbackFacts.fallback_structural_never_found parse parse path_join git
           (backend "c1") "mul" "function" _find_function fresh).
  - reflexivity.
  - apply DemoFacts.fresh_coherent.
  - reflexivity.
  - intros f sha src [<-|[]] Hb Hc.
    vm_compute in Hb. injection Hb as <-.
    vm_compute in Hc. injection Hc as <-.
    reflexivity.
Defined.

End ExtraDemo.
